(** * gdb::unique_ptr (C++03 emulation) and the safe bool idiom

    A shallow embedding of [gdb/common/safe-bool.h] and of the C++03 branch of
    [gdb/common/gdb_unique_ptr.h].

    Objects are named by identities; the program state is the store of the
    live owning pointers together with the trace of the calls made to the
    destruction policy.  Const member functions that only read [*this] are
    pure functions of the object's value; the others run in a state and
    error monad over the store, in which touching an object outside its
    lifetime has no result.

    Dereferencing and indexing read the pointee and own nothing; they are
    left out.  So are the comparisons of two owning pointers, which compare
    after a pointer conversion between the two pointee types, and
    [unique_malloc_ptr], whose policy calls [xfree], which is defined
    outside these two headers. *)

From stdpp Require Import base numbers option list gmap.

(** ** safe-bool.h *)

Module SafeBool.

(** [safe_bool_base::bool_type] is a pointer to a const member function of
    [safe_bool_base].  The class has one member function, so such a
    pointer is either 0 or the address of that member. *)
Inductive bool_type :=
| null_member_pointer
| address_of_this_type_does_not_support_comparisons.

(** [void this_type_does_not_support_comparisons () const {}] *)
Definition this_type_does_not_support_comparisons {T : Type} (self : T) : unit := tt.

(** [template <typename T> class safe_bool]: the CRTP parameter [T]
    implements [explicit_operator_bool]. *)
Class safe_bool (T : Type) := explicit_operator_bool : T → bool.

(** [operator bool_type () const] *)
Definition operator_bool_type {T} `{safe_bool T} (self : T) : bool_type :=
  if explicit_operator_bool self
  then address_of_this_type_does_not_support_comparisons
  else null_member_pointer.

(** The conversion the language applies to a pointer to member in a
    condition ([if (x)], [while (x)], [!x]): non-null is true. *)
Definition contextual_bool (b : bool_type) : bool :=
  match b with
  | null_member_pointer => false
  | address_of_this_type_does_not_support_comparisons => true
  end.

(** [bool operator== (const safe_bool<T> &lhs, const safe_bool<U> &rhs)] *)
Definition operator_eq {T U} `{safe_bool T} `{safe_bool U} (lhs : T) (rhs : U) : bool :=
  let _ := this_type_does_not_support_comparisons lhs in
  false.

(** [bool operator!= (const safe_bool<T> &lhs, const safe_bool<U> &rhs)] *)
Definition operator_ne {T U} `{safe_bool T} `{safe_bool U} (lhs : T) (rhs : U) : bool :=
  let _ := this_type_does_not_support_comparisons lhs in
  false.

End SafeBool.

(** ** gdb_unique_ptr.h *)

Module gdb.
Import SafeBool.

(** A raw [element_type *], as an address; [NULL] is address 0.  Pointer
    conversions between related pointee types are taken to keep the
    address. *)
Definition pointer := N.
Definition NULL : pointer := 0%N.

(** The identity of a C++ object: a variable, a parameter or a temporary. *)
Definition obj := nat.

(** The destruction policies whose bodies the header defines from language
    primitives: [default_delete<T>] and [default_delete<T[]>]. *)
Inductive deleter := default_delete | default_delete_array.

Global Instance deleter_eq_dec : EqDecision deleter.
Proof. solve_decision. Defined.

(** What the program does to the outside: a policy's [operator ()] entered
    with an address, and a non-null pointee destroyed by [delete] or
    [delete []]. *)
Inductive event :=
| Called (D : deleter) (ptr : pointer)
| Deleted (ptr : pointer)
| DeletedArray (ptr : pointer).

Global Instance event_eq_dec : EqDecision event.
Proof. solve_decision. Defined.

(** [class unique_ptr_base]: "Only the managed pointer is stored". *)
Record unique_ptr_base := Owning { m_ptr : pointer }.

(** [struct unique_ptr_base_ref] *)
Record unique_ptr_base_ref := Ref { ref_m_ptr : pointer }.

Record world := World {
  objs : gmap obj unique_ptr_base;   (* the owning pointers within their lifetime *)
  trace : list event                 (* oldest event first *)
}.

(** State and error monad. *)
Definition M (A : Type) : Type := world → option (A * world).

Global Instance M_ret : MRet M := λ A a w, Some (a, w).
Global Instance M_bind : MBind M := λ A B f m w,
  match m w with
  | Some (a, w') => f a w'
  | None => None
  end.

(** Reading [*this]. *)
Definition load (this : obj) : M unique_ptr_base := λ w,
  match objs w !! this with
  | Some u => Some (u, w)
  | None => None
  end.

(** [m_ptr = p] *)
Definition store_m_ptr (this : obj) (p : pointer) : M unit := λ w,
  match objs w !! this with
  | Some _ => Some (tt, World (<[this := Owning p]> (objs w)) (trace w))
  | None => None
  end.

(** The member initializer list [: m_ptr (p)] of a constructor: the
    lifetime of [this] begins. *)
Definition begin_lifetime (this : obj) (p : pointer) : M unit := λ w,
  match objs w !! this with
  | Some _ => None
  | None => Some (tt, World (<[this := Owning p]> (objs w)) (trace w))
  end.

(** The end of a destructor: the lifetime of [this] ends. *)
Definition end_lifetime (this : obj) : M unit := λ w,
  match objs w !! this with
  | Some _ => Some (tt, World (delete this (objs w)) (trace w))
  | None => None
  end.

Definition emit (e : event) : M unit := λ w,
  Some (tt, World (objs w) (trace w ++ [e])).

(** [delete ptr]: nothing happens for a null pointer. *)
Definition delete_expression (ptr : pointer) : M unit :=
  if decide (ptr = NULL) then mret tt else emit (Deleted ptr).

(** [delete [] ptr] *)
Definition delete_array_expression (ptr : pointer) : M unit :=
  if decide (ptr = NULL) then mret tt else emit (DeletedArray ptr).

(** [void operator () (T *ptr) const] of the policy [D]. *)
Definition operator_call (D : deleter) (ptr : pointer) : M unit :=
  emit (Called D ptr);;
  match D with
  | default_delete => delete_expression ptr
  | default_delete_array => delete_array_expression ptr
  end.

(** [bool explicit_operator_bool () const { return m_ptr != NULL; }] *)
Global Instance unique_ptr_base_safe_bool : safe_bool unique_ptr_base :=
  λ u, bool_decide (m_ptr u ≠ NULL).

(** [explicit unique_ptr_base (element_type *p = NULL) : m_ptr (p) {}] *)
Definition construct (this : obj) (p : pointer) : M unit := begin_lifetime this p.

(** [element_type *get () const { return m_ptr; }] *)
Definition get (this : obj) : M pointer := u ← load this; mret (m_ptr u).

(** The condition [if (this)], through [safe_bool::operator bool_type]. *)
Definition boolean_test (this : obj) : M bool :=
  u ← load this; mret (contextual_bool (operator_bool_type u)).

(** [release]: [pointer tmp = m_ptr; m_ptr = NULL; return tmp;] *)
Definition release (this : obj) : M pointer :=
  tmp ← get this;
  store_m_ptr this NULL;;
  mret tmp.

(** [unique_ptr_base (unique_ptr_base& a) : m_ptr (a.release ()) {}] *)
Definition construct_from (this a : obj) : M unit :=
  p ← release a; begin_lifetime this p.

(** [unique_ptr_base (unique_ptr_base_ref<element_type> ref) : m_ptr (ref.m_ptr) {}] *)
Definition construct_from_ref (this : obj) (ref : unique_ptr_base_ref) : M unit :=
  begin_lifetime this (ref_m_ptr ref).

(** [template<typename T1> operator unique_ptr_base_ref<T1> ()] *)
Definition operator_ref (this : obj) : M unique_ptr_base_ref :=
  p ← release this; mret (Ref p).

Section unique_ptr_base.
(** [template<typename T, typename D>] *)
Variable D : deleter.

(** [void call_deleter () { D d; d (m_ptr); }] *)
Definition call_deleter (this : obj) : M unit :=
  u ← load this; operator_call D (m_ptr u).

(** [void reset (element_type *p = NULL)] *)
Definition reset (this : obj) (p : pointer) : M unit :=
  u ← load this;
  if decide (p ≠ m_ptr u)
  then call_deleter this;; store_m_ptr this p
  else mret tt.

(** [operator= (unique_ptr_base &a) { reset (a.release ()); return *this; }] *)
Definition assign_from (this a : obj) : M unit :=
  p ← release a; reset this p.

(** [operator= (const unique_ptr_nullptr_t &) { reset (); return *this; }] *)
Definition assign_null (this : obj) : M unit := reset this NULL.

(** [operator= (unique_ptr_base_ref<element_type> ref)] *)
Definition assign_from_ref (this : obj) (ref : unique_ptr_base_ref) : M unit :=
  g ← get this;
  if decide (ref_m_ptr ref ≠ g)
  then call_deleter this;; store_m_ptr this (ref_m_ptr ref)
  else mret tt.

(** [~unique_ptr_base () { call_deleter (); }] *)
Definition destructor (this : obj) : M unit :=
  call_deleter this;; end_lifetime this.

(** [unique_ptr_base<T, D> move (unique_ptr_base<T, D> v) { return v; }]
    called on the lvalue [arg]: the parameter [v] is copy-initialized
    from [arg], the result object is copy-initialized from [v], and [v]
    is destroyed. *)
Definition move (v result arg : obj) : M unit :=
  construct_from v arg;;
  construct_from result v;;
  destructor v.

End unique_ptr_base.

(** [template<typename T1, typename D1> operator unique_ptr_base<T1, D1> ()
    { return unique_ptr_base<T1, D1> (this->release ()); }]: the operand
    of [return] is a temporary [tmp] built from the released address.  The
    copy constructor takes a non-const reference, which a temporary does
    not bind to, so the result object is built from [tmp] through
    [unique_ptr_base_ref]; then [tmp], emptied, is destroyed with its
    policy [D1]. *)
Definition operator_convert (D1 : deleter) (this tmp result : obj) : M unit :=
  p ← release this;
  construct tmp p;;
  ref ← operator_ref tmp;
  construct_from_ref result ref;;
  destructor D1 tmp.

End gdb.

Import SafeBool gdb.

(** ** Programs over owning pointers *)

(** The public operations, as a caller sequences them.  Results handed back
    to the caller (the released address, the observed value) are dropped. *)
Inductive op :=
| Construct (this : obj) (p : pointer)
| ConstructFrom (this a : obj)
| ConstructFromRef (this : obj) (ref : unique_ptr_base_ref)
| AssignFrom (D : deleter) (this a : obj)
| AssignNull (D : deleter) (this : obj)
| AssignFromRef (D : deleter) (this : obj) (ref : unique_ptr_base_ref)
| Get (this : obj)
| BooleanTest (this : obj)
| Release (this : obj)
| Reset (D : deleter) (this : obj) (p : pointer)
| Destroy (D : deleter) (this : obj)
| ToRef (this : obj)
| Convert (D1 : deleter) (this tmp result : obj).

Definition step (o : op) : M unit :=
  match o with
  | Construct this p => construct this p
  | ConstructFrom this a => construct_from this a
  | ConstructFromRef this ref => construct_from_ref this ref
  | AssignFrom D this a => assign_from D this a
  | AssignNull D this => assign_null D this
  | AssignFromRef D this ref => assign_from_ref D this ref
  | Get this => get this;; mret tt
  | BooleanTest this => boolean_test this;; mret tt
  | Release this => release this;; mret tt
  | Reset D this p => reset D this p
  | Destroy D this => destructor D this
  | ToRef this => operator_ref this;; mret tt
  | Convert D1 this tmp result => operator_convert D1 this tmp result
  end.

Fixpoint run (ops : list op) : M unit :=
  match ops with
  | [] => mret tt
  | o :: ops' => step o;; run ops'
  end.

(** [b (d)] and [b = d] for [d] an rvalue of the type of [b], such as the
    value a function returns: [d] is converted to the [unique_ptr_base_ref]
    of that type, from which [b] is built or assigned.  The ref is a member
    of [unique_ptr_base<T, D>], so this route stays within one pointee type
    and policy. *)
Definition construct_through_ref (b d : obj) : M unit :=
  ref ← operator_ref d; construct_from_ref b ref.

Definition assign_through_ref (D : deleter) (b d : obj) : M unit :=
  ref ← operator_ref d; assign_from_ref D b ref.

(** [b = d.operator unique_ptr_base<T1, D1> ()] for [d] of another pointee
    type: the header has no assignment that takes [d] itself, so [d] is
    converted first.  The conversion returns the temporary [conv], [b] is
    assigned from it through [unique_ptr_base_ref], and [conv] is destroyed
    at the end of the full expression. *)
Definition assign_converted (D1 : deleter) (b d tmp conv : obj) : M unit :=
  operator_convert D1 d tmp conv;;
  assign_through_ref D1 b conv;;
  destructor D1 conv.

(** [unique_ptr<T> u (gdb::move (p))] when the value [move] returns is a
    temporary [tmp]: [u] is built from [tmp] through [unique_ptr_base_ref],
    and [tmp] is destroyed at the end of the full expression. *)
Definition construct_from_move (D : deleter) (u v tmp p : obj) : M unit :=
  move D v tmp p;;
  construct_through_ref u tmp;;
  destructor D tmp.

(** The scope of an owning pointer [this] built from [p]: its construction,
    the operations of the scope, and its destruction at scope exit. *)
Definition scope (D : deleter) (this : obj) (p : pointer) (body : list op) : list op :=
  Construct this p :: body ++ [Destroy D this].

(** The objects an operation may write to, a temporary of its own apart;
    [get] and the boolean test are const. *)
Definition written (o : op) : list obj :=
  match o with
  | Get _ | BooleanTest _ => []
  | Construct this _ | ConstructFromRef this _ | AssignNull _ this
  | AssignFromRef _ this _ | Release this | Reset _ this _ | Destroy _ this
  | ToRef this => [this]
  | ConstructFrom this a | AssignFrom _ this a | Convert _ a _ this => [this; a]
  end.

(** The raw address an operation takes from its caller, and the object
    that is to own it. *)
Definition supplied (o : op) : option (obj * pointer) :=
  match o with
  | Construct this p | Reset _ this p => Some (this, p)
  | ConstructFromRef this ref | AssignFromRef _ this ref => Some (this, ref_m_ptr ref)
  | _ => None
  end.

(** No live owning pointer other than [this] holds [p]. *)
Definition not_held_elsewhere (m : gmap obj unique_ptr_base) (this : obj) (p : pointer) : Prop :=
  map_Forall (λ i u, i = this ∨ m_ptr u ≠ p) m.

(** The caller's side of the contract: an address handed to an owning
    pointer is null or is not held by another live owning pointer. *)
Definition fresh_supply (o : op) (w : world) : Prop :=
  match supplied o with
  | Some (this, p) => p = NULL ∨ not_held_elsewhere (objs w) this p
  | None => True
  end.

Fixpoint respects_contract (ops : list op) (w : world) : Prop :=
  match ops with
  | [] => True
  | o :: ops' =>
      fresh_supply o w ∧
      match step o w with
      | Some (_, w') => respects_contract ops' w'
      | None => True
      end
  end.

(** Single ownership: two live owning pointers holding the same non-null
    address are the same object. *)
Definition unique_owner (m : gmap obj unique_ptr_base) : Prop :=
  map_Forall (λ i u, m_ptr u ≠ NULL → not_held_elsewhere m i (m_ptr u)) m.

Global Instance not_held_elsewhere_dec m this p : Decision (not_held_elsewhere m this p).
Proof. unfold not_held_elsewhere. apply _. Defined.

Global Instance fresh_supply_dec o w : Decision (fresh_supply o w).
Proof. unfold fresh_supply. destruct (supplied o) as [[??]|]; apply _. Defined.

Global Instance unique_owner_dec m : Decision (unique_owner m).
Proof. unfold unique_owner. apply _. Defined.

Global Instance respects_contract_dec ops : ∀ w, Decision (respects_contract ops w).
Proof.
  induction ops as [|o ops IH]; intros w; simpl; [apply _|].
  destruct (step o w) as [[? w']|]; apply _.
Defined.

(** The trace, observed. *)

(** The addresses the destruction policies were invoked on. *)
Definition policy_calls (tr : list event) : list pointer :=
  omap (λ e, match e with Called _ p => Some p | _ => None end) tr.

(** The pointees destroyed. *)
Definition destroyed (tr : list event) : list pointer :=
  omap (λ e, match e with Deleted p | DeletedArray p => Some p | Called _ _ => None end) tr.

(** How often the policy was invoked on [p]. *)
Definition calls_on (p : pointer) (tr : list event) : nat :=
  length (filter (λ q, q = p) (policy_calls tr)).

(** How often the pointee at [p] was destroyed. *)
Definition times_destroyed (p : pointer) (tr : list event) : nat :=
  length (filter (λ q, q = p) (destroyed tr)).

(** The events of one invocation of policy [D] on [ptr]. *)
Definition invocation (D : deleter) (ptr : pointer) : list event :=
  Called D ptr ::
  if decide (ptr = NULL) then []
  else match D with
       | default_delete => [Deleted ptr]
       | default_delete_array => [DeletedArray ptr]
       end.

(** ** Further programs and observations *)

(** The generic swap that the comment on [operator=] names as the reason
    the assignment exists: [T tmp (a); a = b; b = tmp;], after which [tmp]
    goes out of scope. *)
Definition swap_by_copy (D : deleter) (tmp a b : obj) : M unit :=
  construct_from tmp a;;
  assign_from D a b;;
  assign_from D b tmp;;
  destructor D tmp.

(** The policy of the owning pointer an operation may call [call_deleter]
    on; for a conversion, the temporary it returns from. *)
Definition op_policy (o : op) : option deleter :=
  match o with
  | AssignFrom D _ _ | AssignNull D _ | AssignFromRef D _ _ | Reset D _ _
  | Destroy D _ | Convert D _ _ _ => Some D
  | _ => None
  end.

(** Some live owning pointer holds [q]. *)
Definition held (m : gmap obj unique_ptr_base) (q : pointer) : Prop :=
  map_Exists (λ _ u, m_ptr u = q) m.

Global Instance held_dec m q : Decision (held m q).
Proof. unfold held. apply _. Defined.

(** A stricter caller: the address handed to an owning pointer is null or
    was never destroyed before. *)
Definition unused_supply (o : op) (w : world) : Prop :=
  match supplied o with
  | Some (_, p) => p = NULL ∨ p ∉ destroyed (trace w)
  | None => True
  end.

Global Instance unused_supply_dec o w : Decision (unused_supply o w).
Proof. unfold unused_supply. destruct (supplied o) as [[??]|]; apply _. Defined.

Fixpoint supplies_unused (ops : list op) (w : world) : Prop :=
  match ops with
  | [] => True
  | o :: ops' =>
      unused_supply o w ∧
      match step o w with
      | Some (_, w') => supplies_unused ops' w'
      | None => True
      end
  end.

Global Instance supplies_unused_dec ops : ∀ w, Decision (supplies_unused ops w).
Proof.
  induction ops as [|o ops IH]; intros w; simpl; [apply _|].
  destruct (step o w) as [[? w']|]; apply _.
Defined.

(** No owning pointer dangles: the destroyed addresses are pairwise
    distinct and not null, and no live owning pointer holds one. *)
Definition no_dangling (w : world) : Prop :=
  NoDup (destroyed (trace w)) ∧
  (NULL ∉ destroyed (trace w)) ∧
  map_Forall (λ _ u, m_ptr u ∉ destroyed (trace w)) (objs w).

Global Instance no_dangling_dec w : Decision (no_dangling w).
Proof. unfold no_dangling. apply _. Defined.

(** The addresses released by [delete], and those released by [delete []]. *)
Definition scalar_deleted (tr : list event) : list pointer :=
  omap (λ e, match e with Deleted p => Some p | _ => None end) tr.

Definition array_deleted (tr : list event) : list pointer :=
  omap (λ e, match e with DeletedArray p => Some p | _ => None end) tr.

(** The addresses a run is handed by its caller. *)
Definition supplied_addresses (ops : list op) : list pointer :=
  omap (λ o, snd <$> supplied o) ops.

(** The operations that hand the address held to the caller. *)
Definition hands_out (o : op) : bool :=
  match o with
  | Release _ | ToRef _ => true
  | _ => false
  end.

(** What an operation that has a result does to the state, case by case. *)
Inductive effect (w : world) : op → world → Prop :=
| effect_Construct this p :
    objs w !! this = None →
    effect w (Construct this p) (World (<[this := Owning p]> (objs w)) (trace w))
| effect_ConstructFrom this a v :
    objs w !! a = Some v → objs w !! this = None →
    effect w (ConstructFrom this a)
      (World (<[this := Owning (m_ptr v)]> (<[a := Owning NULL]> (objs w))) (trace w))
| effect_ConstructFromRef this ref :
    objs w !! this = None →
    effect w (ConstructFromRef this ref)
      (World (<[this := Owning (ref_m_ptr ref)]> (objs w)) (trace w))
| effect_AssignFrom_self D this u :
    objs w !! this = Some u →
    effect w (AssignFrom D this this)
      (World (objs w) (trace w ++ if decide (m_ptr u = NULL) then [] else invocation D NULL))
| effect_AssignFrom_same D this a u v :
    this ≠ a → objs w !! this = Some u → objs w !! a = Some v → m_ptr v = m_ptr u →
    effect w (AssignFrom D this a) (World (<[a := Owning NULL]> (objs w)) (trace w))
| effect_AssignFrom_other D this a u v :
    this ≠ a → objs w !! this = Some u → objs w !! a = Some v → m_ptr v ≠ m_ptr u →
    effect w (AssignFrom D this a)
      (World (<[this := Owning (m_ptr v)]> (<[a := Owning NULL]> (objs w)))
             (trace w ++ invocation D (m_ptr u)))
| effect_AssignNull_keep D this u :
    objs w !! this = Some u → m_ptr u = NULL →
    effect w (AssignNull D this) w
| effect_AssignNull D this u :
    objs w !! this = Some u → m_ptr u ≠ NULL →
    effect w (AssignNull D this)
      (World (<[this := Owning NULL]> (objs w)) (trace w ++ invocation D (m_ptr u)))
| effect_AssignFromRef_keep D this ref u :
    objs w !! this = Some u → ref_m_ptr ref = m_ptr u →
    effect w (AssignFromRef D this ref) w
| effect_AssignFromRef D this ref u :
    objs w !! this = Some u → ref_m_ptr ref ≠ m_ptr u →
    effect w (AssignFromRef D this ref)
      (World (<[this := Owning (ref_m_ptr ref)]> (objs w)) (trace w ++ invocation D (m_ptr u)))
| effect_Get this u :
    objs w !! this = Some u → effect w (Get this) w
| effect_BooleanTest this u :
    objs w !! this = Some u → effect w (BooleanTest this) w
| effect_Release this u :
    objs w !! this = Some u →
    effect w (Release this) (World (<[this := Owning NULL]> (objs w)) (trace w))
| effect_Reset_keep D this p u :
    objs w !! this = Some u → p = m_ptr u →
    effect w (Reset D this p) w
| effect_Reset D this p u :
    objs w !! this = Some u → p ≠ m_ptr u →
    effect w (Reset D this p)
      (World (<[this := Owning p]> (objs w)) (trace w ++ invocation D (m_ptr u)))
| effect_Destroy D this u :
    objs w !! this = Some u →
    effect w (Destroy D this)
      (World (delete this (objs w)) (trace w ++ invocation D (m_ptr u)))
| effect_ToRef this u :
    objs w !! this = Some u →
    effect w (ToRef this) (World (<[this := Owning NULL]> (objs w)) (trace w))
| effect_Convert D1 this tmp result v :
    objs w !! this = Some v → objs w !! tmp = None → objs w !! result = None →
    tmp ≠ result →
    effect w (Convert D1 this tmp result)
      (World (<[result := Owning (m_ptr v)]> (<[this := Owning NULL]> (objs w)))
             (trace w ++ invocation D1 NULL)).

(** Using an object outside its lifetime has no result. *)
Ltac outside_lifetime H :=
  unfold step, construct, construct_from, construct_from_ref, assign_from, assign_null,
    assign_from_ref, reset, destructor, call_deleter, operator_ref, operator_convert,
    release, boolean_test, get, load, begin_lifetime, mbind, M_bind;
  simpl; rewrite ?H; simpl; try done.

(** ** The monad *)

Lemma bind_Some {A B} (m : M A) (f : A → M B) w a w1 :
  m w = Some (a, w1) → (m ≫= f) w = f a w1.
Proof. intros Hm. unfold mbind, M_bind. by rewrite Hm. Qed.

Lemma bind_None {A B} (m : M A) (f : A → M B) w :
  m w = None → (m ≫= f) w = None.
Proof. intros Hm. unfold mbind, M_bind. by rewrite Hm. Qed.

Lemma bind_inv {A B} (m : M A) (f : A → M B) w b w' :
  (m ≫= f) w = Some (b, w') → ∃ a w1, m w = Some (a, w1) ∧ f a w1 = Some (b, w').
Proof.
  unfold mbind, M_bind. destruct (m w) as [[a w1]|] eqn:Hm; [|done].
  intros Hf. by exists a, w1.
Qed.

(** ** What each member function does to a live object *)

Section methods.
Context (w : world) (this : obj) (u : unique_ptr_base).
Hypothesis Hlive : objs w !! this = Some u.

Lemma load_live : load this w = Some (u, w).
Proof. unfold load. by rewrite Hlive. Qed.

Lemma get_live : get this w = Some (m_ptr u, w).
Proof. unfold get. by rewrite (bind_Some _ _ _ _ _ load_live). Qed.

Lemma store_m_ptr_live p :
  store_m_ptr this p w = Some (tt, World (<[this := Owning p]> (objs w)) (trace w)).
Proof. unfold store_m_ptr. by rewrite Hlive. Qed.

Lemma end_lifetime_live :
  end_lifetime this w = Some (tt, World (delete this (objs w)) (trace w)).
Proof. unfold end_lifetime. by rewrite Hlive. Qed.

Lemma boolean_test_live :
  boolean_test this w = Some (bool_decide (m_ptr u ≠ NULL), w).
Proof.
  unfold boolean_test. rewrite (bind_Some _ _ _ _ _ load_live).
  unfold operator_bool_type, explicit_operator_bool, unique_ptr_base_safe_bool.
  by destruct (bool_decide (m_ptr u ≠ NULL)).
Qed.

Lemma release_live :
  release this w = Some (m_ptr u, World (<[this := Owning NULL]> (objs w)) (trace w)).
Proof.
  unfold release. rewrite (bind_Some _ _ _ _ _ get_live).
  by rewrite (bind_Some _ _ _ _ _ (store_m_ptr_live NULL)).
Qed.

Lemma operator_ref_live :
  operator_ref this w
  = Some (Ref (m_ptr u), World (<[this := Owning NULL]> (objs w)) (trace w)).
Proof. unfold operator_ref. by rewrite (bind_Some _ _ _ _ _ release_live). Qed.

Lemma operator_call_eq D ptr :
  operator_call D ptr w = Some (tt, World (objs w) (trace w ++ invocation D ptr)).
Proof.
  unfold operator_call, invocation, delete_expression, delete_array_expression.
  unfold mbind, M_bind, emit, mret, M_ret. simpl.
  destruct D; case_decide; simpl; by rewrite <- ?(assoc_L (++)).
Qed.

Lemma call_deleter_live D :
  call_deleter D this w
  = Some (tt, World (objs w) (trace w ++ invocation D (m_ptr u))).
Proof.
  unfold call_deleter. rewrite (bind_Some _ _ _ _ _ load_live).
  apply operator_call_eq.
Qed.
End methods.

Lemma construct_fresh this p w :
  objs w !! this = None →
  construct this p w = Some (tt, World (<[this := Owning p]> (objs w)) (trace w)).
Proof. intros Hfresh. unfold construct, begin_lifetime. by rewrite Hfresh. Qed.

Lemma construct_from_ref_fresh this ref w :
  objs w !! this = None →
  construct_from_ref this ref w
  = Some (tt, World (<[this := Owning (ref_m_ptr ref)]> (objs w)) (trace w)).
Proof. intros Hfresh. unfold construct_from_ref, begin_lifetime. by rewrite Hfresh. Qed.

Lemma construct_from_fresh this a v w :
  objs w !! a = Some v → objs w !! this = None →
  construct_from this a w
  = Some (tt, World (<[this := Owning (m_ptr v)]> (<[a := Owning NULL]> (objs w))) (trace w)).
Proof.
  intros Ha Hfresh. unfold construct_from.
  rewrite (bind_Some _ _ _ _ _ (release_live _ _ _ Ha)).
  unfold begin_lifetime. simpl.
  rewrite lookup_insert_ne; [by rewrite Hfresh | congruence].
Qed.

Lemma reset_live D this p u w :
  objs w !! this = Some u →
  reset D this p w
  = Some (tt, if decide (p ≠ m_ptr u)
              then World (<[this := Owning p]> (objs w)) (trace w ++ invocation D (m_ptr u))
              else w).
Proof.
  intros Hlive. unfold reset.
  rewrite (bind_Some _ _ _ _ _ (load_live _ _ _ Hlive)).
  case_decide; [|done].
  rewrite (bind_Some _ _ _ _ _ (call_deleter_live _ _ _ Hlive D)).
  apply store_m_ptr_live with (u := u). exact Hlive.
Qed.

Lemma assign_from_ref_live D this ref u w :
  objs w !! this = Some u →
  assign_from_ref D this ref w
  = Some (tt, if decide (ref_m_ptr ref ≠ m_ptr u)
              then World (<[this := Owning (ref_m_ptr ref)]> (objs w))
                         (trace w ++ invocation D (m_ptr u))
              else w).
Proof.
  intros Hlive. unfold assign_from_ref.
  rewrite (bind_Some _ _ _ _ _ (get_live _ _ _ Hlive)).
  case_decide; [|done].
  rewrite (bind_Some _ _ _ _ _ (call_deleter_live _ _ _ Hlive D)).
  apply store_m_ptr_live with (u := u). exact Hlive.
Qed.

Lemma destructor_live D this u w :
  objs w !! this = Some u →
  destructor D this w
  = Some (tt, World (delete this (objs w)) (trace w ++ invocation D (m_ptr u))).
Proof.
  intros Hlive. unfold destructor.
  rewrite (bind_Some _ _ _ _ _ (call_deleter_live _ _ _ Hlive D)).
  apply end_lifetime_live with (u := u). exact Hlive.
Qed.

Lemma operator_convert_fresh D1 this tmp result v w :
  objs w !! this = Some v → objs w !! tmp = None → objs w !! result = None →
  tmp ≠ result →
  operator_convert D1 this tmp result w
  = Some (tt, World (<[result := Owning (m_ptr v)]> (<[this := Owning NULL]> (objs w)))
                    (trace w ++ invocation D1 NULL)).
Proof.
  intros Hthis Htmp Hres Hne. unfold operator_convert.
  assert (this ≠ tmp) by congruence. assert (this ≠ result) by congruence.
  rewrite (bind_Some _ _ _ _ _ (release_live _ _ _ Hthis)).
  erewrite bind_Some; last first.
  { apply construct_fresh. simpl. by rewrite lookup_insert_ne. }
  erewrite bind_Some; last first.
  { apply (operator_ref_live _ tmp (Owning (m_ptr v))). simpl. by rewrite lookup_insert_eq. }
  erewrite bind_Some; last first.
  { apply construct_from_ref_fresh. simpl. by rewrite !lookup_insert_ne. }
  erewrite (destructor_live D1 tmp (Owning NULL)); last first.
  { simpl. by rewrite lookup_insert_ne, lookup_insert_eq. }
  simpl. do 2 f_equal. f_equal.
  apply map_eq. intros i.
  destruct (decide (i = tmp)) as [->|?].
  { rewrite lookup_delete_eq, !lookup_insert_ne by done. by rewrite Htmp. }
  rewrite lookup_delete_ne by done.
  destruct (decide (i = result)) as [->|?]; [by rewrite !lookup_insert_eq|].
  rewrite !(lookup_insert_ne _ result) by done.
  by rewrite !(lookup_insert_ne _ tmp) by done.
Qed.

(** A conversion has a result only on a live object, with a fresh temporary
    and a fresh result object. *)
Lemma operator_convert_inv D1 this tmp result w w' :
  operator_convert D1 this tmp result w = Some (tt, w') →
  ∃ v, objs w !! this = Some v ∧ objs w !! tmp = None ∧ objs w !! result = None ∧
       tmp ≠ result.
Proof.
  unfold operator_convert.
  destruct (objs w !! this) as [v|] eqn:Hthis; last first.
  { unfold release, get, load, mbind, M_bind. by rewrite Hthis. }
  rewrite (bind_Some _ _ _ _ _ (release_live _ _ _ Hthis)).
  destruct (<[this := Owning NULL]> (objs w) !! tmp) as [t|] eqn:Htmp1.
  { unfold construct, begin_lifetime, mbind, M_bind. simpl. by rewrite Htmp1. }
  assert (this ≠ tmp) as Htt. { intros ->. by rewrite lookup_insert_eq in Htmp1. }
  assert (objs w !! tmp = None) as Htmp. { by rewrite lookup_insert_ne in Htmp1. }
  erewrite bind_Some; last first.
  { apply construct_fresh. exact Htmp1. }
  erewrite bind_Some; last first.
  { apply (operator_ref_live _ tmp (Owning (m_ptr v))). simpl. by rewrite lookup_insert_eq. }
  simpl.
  destruct (decide (tmp = result)) as [<-|Hne].
  { unfold construct_from_ref, begin_lifetime, mbind, M_bind. simpl.
    by rewrite lookup_insert_eq. }
  destruct (objs w !! result) as [r|] eqn:Hres.
  { unfold construct_from_ref, begin_lifetime, mbind, M_bind. simpl.
    rewrite !(lookup_insert_ne _ tmp) by done.
    destruct (decide (this = result)) as [<-|?];
      [by rewrite lookup_insert_eq | by rewrite lookup_insert_ne, Hres]. }
  intros _. by exists v.
Qed.

(** [this = a] with [a] another object. *)
Lemma assign_from_other D this a u v w :
  this ≠ a → objs w !! this = Some u → objs w !! a = Some v →
  assign_from D this a w
  = Some (tt, if decide (m_ptr v ≠ m_ptr u)
              then World (<[this := Owning (m_ptr v)]> (<[a := Owning NULL]> (objs w)))
                         (trace w ++ invocation D (m_ptr u))
              else World (<[a := Owning NULL]> (objs w)) (trace w)).
Proof.
  intros Hne Hthis Ha. unfold assign_from.
  rewrite (bind_Some _ _ _ _ _ (release_live _ _ _ Ha)).
  erewrite reset_live; [|simpl; by rewrite lookup_insert_ne].
  by case_decide.
Qed.

(** [this = this]: the address is released, then taken back; when it is not
    null the policy is invoked on the null address in between. *)
Lemma assign_from_self D this u w :
  objs w !! this = Some u →
  assign_from D this this w
  = Some (tt, World (objs w)
                    (trace w ++ if decide (m_ptr u = NULL) then [] else [Called D NULL])).
Proof.
  intros Hthis. unfold assign_from.
  rewrite (bind_Some _ _ _ _ _ (release_live _ _ _ Hthis)).
  erewrite reset_live; [|simpl; by rewrite lookup_insert_eq].
  simpl. destruct w as [m tr]; simpl in *. destruct u as [x]; simpl in *.
  destruct (decide (x = NULL)) as [->|Hx].
  - rewrite decide_False by naive_solver.
    rewrite app_nil_r. by rewrite (insert_id m this (Owning NULL)).
  - rewrite decide_True by done.
    rewrite insert_insert_eq. rewrite (insert_id m this (Owning x)) by done.
    done.
Qed.

(** ** Single ownership *)

Lemma not_held_elsewhere_spec m this p :
  not_held_elsewhere m this p ↔ ∀ j v, m !! j = Some v → m_ptr v = p → j = this.
Proof.
  unfold not_held_elsewhere, map_Forall. split.
  - intros H j v Hj Hp. destruct (H j v Hj); congruence.
  - intros H j v Hj. destruct (decide (m_ptr v = p)); [left; eauto | by right].
Qed.

Lemma unique_owner_spec m :
  unique_owner m ↔
  ∀ i j u v, m !! i = Some u → m !! j = Some v →
             m_ptr u = m_ptr v → m_ptr u ≠ NULL → i = j.
Proof.
  unfold unique_owner, map_Forall. split.
  - intros H i j u v Hi Hj Heq Hnn.
    symmetry. eapply not_held_elsewhere_spec; [by eapply H | exact Hj | done].
  - intros H i u Hi Hnn. apply not_held_elsewhere_spec.
    intros j v Hj Heq. symmetry. by eapply (H i j u v).
Qed.

Lemma unique_owner_insert m i p :
  unique_owner m → p = NULL ∨ not_held_elsewhere m i p →
  unique_owner (<[i := Owning p]> m).
Proof.
  rewrite !unique_owner_spec, not_held_elsewhere_spec.
  intros Hm Hp j k u v Hj Hk Heq Hnn.
  rewrite lookup_insert in Hj, Hk.
  destruct (decide (i = j)) as [<-|Hji], (decide (i = k)) as [Hik|Hki];
    simplify_eq/=; [done|..].
  - destruct Hp as [?|Hp]; [done|]. exfalso. apply Hki. symmetry. by eapply Hp.
  - destruct Hp as [?|Hp]; [congruence|]. exfalso. apply Hji. symmetry. by eapply Hp.
  - by eapply Hm.
Qed.

Lemma unique_owner_insert_null m i :
  unique_owner m → unique_owner (<[i := Owning NULL]> m).
Proof. intros Hm. apply unique_owner_insert; [done | by left]. Qed.

Lemma unique_owner_delete m i : unique_owner m → unique_owner (delete i m).
Proof.
  rewrite !unique_owner_spec. intros Hm j k u v Hj Hk.
  apply lookup_delete_Some in Hj as [_ Hj]. apply lookup_delete_Some in Hk as [_ Hk].
  by eapply Hm.
Qed.

(** Once [a] has released its address, no live owning pointer holds it. *)
Lemma released_not_held m a v this :
  unique_owner m → m !! a = Some v →
  m_ptr v = NULL ∨ not_held_elsewhere (<[a := Owning NULL]> m) this (m_ptr v).
Proof.
  rewrite unique_owner_spec, not_held_elsewhere_spec. intros Hm Ha.
  destruct (decide (m_ptr v = NULL)) as [|Hnn]; [by left | right].
  intros j x Hj Heq. exfalso.
  destruct (decide (j = a)) as [->|Hja].
  - rewrite lookup_insert_eq in Hj. by simplify_eq/=.
  - rewrite lookup_insert_ne in Hj by done.
    apply Hja. eapply Hm; [exact Hj | exact Ha | done | congruence].
Qed.

Lemma not_held_elsewhere_insert_null m a this p :
  p = NULL ∨ not_held_elsewhere m this p →
  p = NULL ∨ not_held_elsewhere (<[a := Owning NULL]> m) this p.
Proof.
  intros [?|H]; [by left|]. destruct (decide (p = NULL)); [by left | right].
  revert H. rewrite !not_held_elsewhere_spec. intros H j x Hj Heq.
  destruct (decide (j = a)) as [->|Hja].
  - rewrite lookup_insert_eq in Hj. by simplify_eq/=.
  - rewrite lookup_insert_ne in Hj by done. by eapply H.
Qed.

Lemma step_unique_owner o w w' :
  unique_owner (objs w) → fresh_supply o w → step o w = Some (tt, w') →
  unique_owner (objs w').
Proof.
  intros Hinv Hsup.
  destruct o as [this p|this a|this ref|D this a|D this|D this ref|this|this|this
                 |D this p|D this|this|D1 this tmp result]; simpl.
  - (* Construct *)
    destruct (objs w !! this) as [u|] eqn:Hthis; [outside_lifetime Hthis|].
    rewrite construct_fresh by done. intros [= <-]; simpl.
    by apply unique_owner_insert.
  - (* ConstructFrom *)
    destruct (objs w !! a) as [v|] eqn:Ha; [|outside_lifetime Ha].
    destruct (objs w !! this) as [u|] eqn:Hthis.
    { unfold construct_from. rewrite (bind_Some _ _ _ _ _ (release_live _ _ _ Ha)).
      unfold begin_lifetime; simpl.
      destruct (decide (a = this)) as [->|?];
        [by rewrite lookup_insert_eq | by rewrite lookup_insert_ne, Hthis]. }
    rewrite (construct_from_fresh this a v) by done. intros [= <-]; simpl.
    apply unique_owner_insert; [by apply unique_owner_insert_null|].
    by apply released_not_held.
  - (* ConstructFromRef *)
    destruct (objs w !! this) as [u|] eqn:Hthis; [outside_lifetime Hthis|].
    rewrite construct_from_ref_fresh by done. intros [= <-]; simpl.
    by apply unique_owner_insert.
  - (* AssignFrom *)
    destruct (objs w !! a) as [v|] eqn:Ha; [|outside_lifetime Ha].
    destruct (decide (this = a)) as [->|Hne].
    { rewrite (assign_from_self D a v) by done. by intros [= <-]. }
    destruct (objs w !! this) as [u|] eqn:Hthis.
    2:{ unfold assign_from. rewrite (bind_Some _ _ _ _ _ (release_live _ _ _ Ha)).
        unfold reset, load, mbind, M_bind; simpl.
        by rewrite lookup_insert_ne, Hthis. }
    rewrite (assign_from_other D this a u v) by done. intros [= <-].
    case_decide; simpl.
    + apply unique_owner_insert; [by apply unique_owner_insert_null|].
      by apply released_not_held.
    + by apply unique_owner_insert_null.
  - (* AssignNull *)
    destruct (objs w !! this) as [u|] eqn:Hthis; [|outside_lifetime Hthis].
    unfold assign_null. rewrite (reset_live D this NULL u) by done. intros [= <-].
    case_decide; [|done]. simpl. by apply unique_owner_insert_null.
  - (* AssignFromRef *)
    destruct (objs w !! this) as [u|] eqn:Hthis; [|outside_lifetime Hthis].
    rewrite (assign_from_ref_live D this ref u) by done. intros [= <-].
    case_decide; [|done]. simpl. by apply unique_owner_insert.
  - (* Get *)
    destruct (objs w !! this) as [u|] eqn:Hthis; [|outside_lifetime Hthis].
    rewrite (bind_Some _ _ _ _ _ (get_live _ _ _ Hthis)). by intros [= <-].
  - (* BooleanTest *)
    destruct (objs w !! this) as [u|] eqn:Hthis; [|outside_lifetime Hthis].
    rewrite (bind_Some _ _ _ _ _ (boolean_test_live _ _ _ Hthis)). by intros [= <-].
  - (* Release *)
    destruct (objs w !! this) as [u|] eqn:Hthis; [|outside_lifetime Hthis].
    rewrite (bind_Some _ _ _ _ _ (release_live _ _ _ Hthis)). intros [= <-]; simpl.
    by apply unique_owner_insert_null.
  - (* Reset *)
    destruct (objs w !! this) as [u|] eqn:Hthis; [|outside_lifetime Hthis].
    rewrite (reset_live D this p u) by done. intros [= <-].
    case_decide; [|done]. simpl. by apply unique_owner_insert.
  - (* Destroy *)
    destruct (objs w !! this) as [u|] eqn:Hthis; [|outside_lifetime Hthis].
    rewrite (destructor_live D this u) by done. intros [= <-]; simpl.
    by apply unique_owner_delete.
  - (* ToRef *)
    destruct (objs w !! this) as [u|] eqn:Hthis; [|outside_lifetime Hthis].
    rewrite (bind_Some _ _ _ _ _ (operator_ref_live _ _ _ Hthis)). intros [= <-]; simpl.
    by apply unique_owner_insert_null.
  - (* Convert *)
    intros Hstep.
    destruct (operator_convert_inv _ _ _ _ _ _ Hstep) as (u & Hthis & Htmp & Hres & Hne).
    rewrite (operator_convert_fresh D1 this tmp result u) in Hstep by done.
    injection Hstep as <-; simpl.
    apply unique_owner_insert; [by apply unique_owner_insert_null|].
    by apply released_not_held.
Qed.

(** ** Runs *)

Lemma run_app ops1 ops2 w :
  run (ops1 ++ ops2) w
  = match run ops1 w with
    | Some (_, w1) => run ops2 w1
    | None => None
    end.
Proof.
  revert w. induction ops1 as [|o ops1 IH]; intros w; simpl; [done|].
  unfold mbind, M_bind. destruct (step o w) as [[[] w1]|]; [apply IH | done].
Qed.

Lemma respects_contract_app ops1 ops2 w w1 :
  respects_contract (ops1 ++ ops2) w → run ops1 w = Some (tt, w1) →
  respects_contract ops1 w ∧ respects_contract ops2 w1.
Proof.
  revert w. induction ops1 as [|o ops1 IH]; intros w; simpl.
  - intros H [= <-]. done.
  - unfold mbind, M_bind. intros [Hsup H].
    destruct (step o w) as [[[] w2]|]; [|done]. intros Hrun.
    destruct (IH _ H Hrun). done.
Qed.

Lemma run_unique_owner ops w w' :
  unique_owner (objs w) → respects_contract ops w → run ops w = Some (tt, w') →
  unique_owner (objs w').
Proof.
  revert w. induction ops as [|o ops IH]; intros w Hinv; simpl.
  - by intros _ [= <-].
  - unfold mbind, M_bind. intros [Hsup H].
    destruct (step o w) as [[[] w1]|] eqn:Hstep; [|done].
    apply IH; [by eapply step_unique_owner | done].
Qed.

(** ** The trace *)

Lemma policy_calls_app tr1 tr2 : policy_calls (tr1 ++ tr2) = policy_calls tr1 ++ policy_calls tr2.
Proof. apply omap_app. Qed.

Lemma destroyed_app tr1 tr2 : destroyed (tr1 ++ tr2) = destroyed tr1 ++ destroyed tr2.
Proof. apply omap_app. Qed.

Lemma policy_calls_invocation D q : policy_calls (invocation D q) = [q].
Proof. unfold invocation. by destruct D; case_decide. Qed.

Lemma destroyed_invocation D q :
  destroyed (invocation D q) = if decide (q = NULL) then [] else [q].
Proof. unfold invocation. by destruct D; case_decide. Qed.

Lemma calls_on_app p tr1 tr2 : calls_on p (tr1 ++ tr2) = calls_on p tr1 + calls_on p tr2.
Proof. unfold calls_on. by rewrite policy_calls_app, filter_app, length_app. Qed.

Lemma calls_on_invocation p D q :
  calls_on p (invocation D q) = if decide (q = p) then 1 else 0.
Proof.
  unfold calls_on. rewrite policy_calls_invocation.
  rewrite filter_cons, filter_nil. by case_decide.
Qed.

Lemma calls_on_other p D q tr : q ≠ p → calls_on p (tr ++ invocation D q) = calls_on p tr.
Proof.
  intros Hne. rewrite calls_on_app, calls_on_invocation.
  rewrite decide_False by done. lia.
Qed.

(** An operation leaves the objects it does not write to as they are. *)
Lemma step_objs_frame o w w' i :
  i ∉ written o → step o w = Some (tt, w') → objs w' !! i = objs w !! i.
Proof.
  intros Hi.
  destruct o as [this p|this a|this ref|D this a|D this|D this ref|this|this|this
                 |D this p|D this|this|D1 this tmp result]; simpl in *;
    repeat match goal with
    | H : _ ∉ _ :: _ |- _ => apply not_elem_of_cons in H as [? H]
    end.
  - destruct (objs w !! this) as [u|] eqn:Hthis; [outside_lifetime Hthis|].
    rewrite construct_fresh by done. intros [= <-]; simpl. by rewrite lookup_insert_ne.
  - destruct (objs w !! a) as [v|] eqn:Ha; [|outside_lifetime Ha].
    unfold construct_from. rewrite (bind_Some _ _ _ _ _ (release_live _ _ _ Ha)).
    unfold begin_lifetime; simpl. case_match; [done|]. intros [= <-]; simpl.
    by rewrite !lookup_insert_ne.
  - destruct (objs w !! this) as [u|] eqn:Hthis; [outside_lifetime Hthis|].
    rewrite construct_from_ref_fresh by done. intros [= <-]; simpl.
    by rewrite lookup_insert_ne.
  - destruct (objs w !! a) as [v|] eqn:Ha; [|outside_lifetime Ha].
    unfold assign_from. rewrite (bind_Some _ _ _ _ _ (release_live _ _ _ Ha)).
    destruct (<[a := Owning NULL]> (objs w) !! this) as [u|] eqn:Hthis.
    + erewrite reset_live by exact Hthis. intros [= <-].
      case_decide; simpl; by rewrite !lookup_insert_ne.
    + unfold reset, load, mbind, M_bind; simpl. by rewrite Hthis.
  - destruct (objs w !! this) as [u|] eqn:Hthis; [|outside_lifetime Hthis].
    unfold assign_null. rewrite (reset_live D this NULL u) by done. intros [= <-].
    case_decide; simpl; by rewrite ?lookup_insert_ne.
  - destruct (objs w !! this) as [u|] eqn:Hthis; [|outside_lifetime Hthis].
    rewrite (assign_from_ref_live D this ref u) by done. intros [= <-].
    case_decide; simpl; by rewrite ?lookup_insert_ne.
  - destruct (objs w !! this) as [u|] eqn:Hthis; [|outside_lifetime Hthis].
    rewrite (bind_Some _ _ _ _ _ (get_live _ _ _ Hthis)). by intros [= <-].
  - destruct (objs w !! this) as [u|] eqn:Hthis; [|outside_lifetime Hthis].
    rewrite (bind_Some _ _ _ _ _ (boolean_test_live _ _ _ Hthis)). by intros [= <-].
  - destruct (objs w !! this) as [u|] eqn:Hthis; [|outside_lifetime Hthis].
    rewrite (bind_Some _ _ _ _ _ (release_live _ _ _ Hthis)). intros [= <-]; simpl.
    by rewrite lookup_insert_ne.
  - destruct (objs w !! this) as [u|] eqn:Hthis; [|outside_lifetime Hthis].
    rewrite (reset_live D this p u) by done. intros [= <-].
    case_decide; simpl; by rewrite ?lookup_insert_ne.
  - destruct (objs w !! this) as [u|] eqn:Hthis; [|outside_lifetime Hthis].
    rewrite (destructor_live D this u) by done. intros [= <-]; simpl.
    by rewrite lookup_delete_ne.
  - destruct (objs w !! this) as [u|] eqn:Hthis; [|outside_lifetime Hthis].
    rewrite (bind_Some _ _ _ _ _ (operator_ref_live _ _ _ Hthis)). intros [= <-]; simpl.
    by rewrite lookup_insert_ne.
  - intros Hstep.
    destruct (operator_convert_inv _ _ _ _ _ _ Hstep) as (u & Hthis & Htmp & Hres & Hne).
    rewrite (operator_convert_fresh D1 this tmp result u) in Hstep by done.
    injection Hstep as <-; simpl. by rewrite !lookup_insert_ne.
Qed.

Lemma times_destroyed_app p tr1 tr2 :
  times_destroyed p (tr1 ++ tr2) = times_destroyed p tr1 + times_destroyed p tr2.
Proof. unfold times_destroyed. by rewrite destroyed_app, filter_app, length_app. Qed.

Lemma times_destroyed_invocation p D q :
  times_destroyed p (invocation D q) = if decide (q = p ∧ q ≠ NULL) then 1 else 0.
Proof.
  unfold times_destroyed. rewrite destroyed_invocation.
  destruct (decide (q = NULL)) as [->|Hq].
  - rewrite filter_nil. by rewrite decide_False by (intros [_ ?]; done).
  - rewrite filter_cons, filter_nil.
    destruct (decide (q = p));
      [by rewrite decide_True | by rewrite decide_False by (intros [? _]; done)].
Qed.

Lemma times_destroyed_other p D q tr :
  q ≠ p → times_destroyed p (tr ++ invocation D q) = times_destroyed p tr.
Proof.
  intros Hne. rewrite times_destroyed_app, times_destroyed_invocation.
  rewrite decide_False by (intros [? _]; done). lia.
Qed.

(** The events an operation adds: at most one invocation of the policy, on
    the null address or on the address held by an object the operation
    writes to. *)
Lemma step_trace o w w' :
  step o w = Some (tt, w') →
  trace w' = trace w ∨
  ∃ D q, trace w' = trace w ++ invocation D q ∧
         (q = NULL ∨ ∃ t v, t ∈ written o ∧ objs w !! t = Some v ∧ m_ptr v = q).
Proof.
  destruct o as [this p|this a|this ref|D this a|D this|D this ref|this|this|this
                 |D this p|D this|this|D1 this tmp result]; simpl.
  - destruct (objs w !! this) as [u|] eqn:Hthis; [outside_lifetime Hthis|].
    rewrite construct_fresh by done. intros [= <-]. by left.
  - destruct (objs w !! a) as [v|] eqn:Ha; [|outside_lifetime Ha].
    unfold construct_from. rewrite (bind_Some _ _ _ _ _ (release_live _ _ _ Ha)).
    unfold begin_lifetime; simpl. case_match; [done|]. intros [= <-]. by left.
  - destruct (objs w !! this) as [u|] eqn:Hthis; [outside_lifetime Hthis|].
    rewrite construct_from_ref_fresh by done. intros [= <-]. by left.
  - destruct (objs w !! a) as [v|] eqn:Ha; [|outside_lifetime Ha].
    destruct (decide (this = a)) as [->|Hne].
    { rewrite (assign_from_self D a v) by done. intros [= <-]; simpl.
      case_decide; [left; by rewrite app_nil_r|]. right. exists D, NULL. split; [|by left].
      unfold invocation. by rewrite decide_True. }
    destruct (objs w !! this) as [u|] eqn:Hthis.
    2:{ unfold assign_from. rewrite (bind_Some _ _ _ _ _ (release_live _ _ _ Ha)).
        unfold reset, load, mbind, M_bind; simpl.
        by rewrite lookup_insert_ne, Hthis. }
    rewrite (assign_from_other D this a u v) by done. intros [= <-].
    case_decide; simpl; [|by left]. right. exists D, (m_ptr u). split; [done|].
    right. exists this, u. split_and!; [set_solver|done..].
  - destruct (objs w !! this) as [u|] eqn:Hthis; [|outside_lifetime Hthis].
    unfold assign_null. rewrite (reset_live D this NULL u) by done. intros [= <-].
    case_decide; simpl; [|by left]. right. exists D, (m_ptr u). split; [done|].
    right. exists this, u. split_and!; [set_solver|done..].
  - destruct (objs w !! this) as [u|] eqn:Hthis; [|outside_lifetime Hthis].
    rewrite (assign_from_ref_live D this ref u) by done. intros [= <-].
    case_decide; simpl; [|by left]. right. exists D, (m_ptr u). split; [done|].
    right. exists this, u. split_and!; [set_solver|done..].
  - destruct (objs w !! this) as [u|] eqn:Hthis; [|outside_lifetime Hthis].
    rewrite (bind_Some _ _ _ _ _ (get_live _ _ _ Hthis)). intros [= <-]. by left.
  - destruct (objs w !! this) as [u|] eqn:Hthis; [|outside_lifetime Hthis].
    rewrite (bind_Some _ _ _ _ _ (boolean_test_live _ _ _ Hthis)). intros [= <-]. by left.
  - destruct (objs w !! this) as [u|] eqn:Hthis; [|outside_lifetime Hthis].
    rewrite (bind_Some _ _ _ _ _ (release_live _ _ _ Hthis)). intros [= <-]. by left.
  - destruct (objs w !! this) as [u|] eqn:Hthis; [|outside_lifetime Hthis].
    rewrite (reset_live D this p u) by done. intros [= <-].
    case_decide; simpl; [|by left]. right. exists D, (m_ptr u). split; [done|].
    right. exists this, u. split_and!; [set_solver|done..].
  - destruct (objs w !! this) as [u|] eqn:Hthis; [|outside_lifetime Hthis].
    rewrite (destructor_live D this u) by done. intros [= <-]; simpl.
    right. exists D, (m_ptr u). split; [done|].
    right. exists this, u. split_and!; [set_solver|done..].
  - destruct (objs w !! this) as [u|] eqn:Hthis; [|outside_lifetime Hthis].
    rewrite (bind_Some _ _ _ _ _ (operator_ref_live _ _ _ Hthis)). intros [= <-]. by left.
  - intros Hstep.
    destruct (operator_convert_inv _ _ _ _ _ _ Hstep) as (u & Hthis & Htmp & Hres & Hne).
    rewrite (operator_convert_fresh D1 this tmp result u) in Hstep by done.
    injection Hstep as <-; simpl. right. exists D1, NULL. split; [done | by left].
Qed.

(** While [this] owns a non-null address and single ownership holds, the
    operations that do not write to [this] neither invoke the policy on that
    address nor destroy its pointee. *)
Lemma step_owner_frame o w w' this u :
  unique_owner (objs w) → objs w !! this = Some u → m_ptr u ≠ NULL →
  this ∉ written o → step o w = Some (tt, w') →
  objs w' !! this = Some u ∧
  calls_on (m_ptr u) (trace w') = calls_on (m_ptr u) (trace w) ∧
  times_destroyed (m_ptr u) (trace w') = times_destroyed (m_ptr u) (trace w).
Proof.
  intros Hinv Hthis Hnn Hnot Hstep. split.
  { by rewrite (step_objs_frame _ _ _ _ Hnot Hstep). }
  destruct (step_trace _ _ _ Hstep) as [->|(D & q & -> & Hq)]; [done|].
  assert (q ≠ m_ptr u) as Hne.
  { destruct Hq as [->|(t & v & Ht & Hv & <-)]; [done|].
    intros Heq. apply Hnot. 
    assert (this = t) as ->; [|done].
    eapply unique_owner_spec; [exact Hinv | exact Hthis | exact Hv | done..]. }
  by rewrite calls_on_other, times_destroyed_other.
Qed.

Lemma run_owner_frame ops w w' this u :
  unique_owner (objs w) → respects_contract ops w →
  objs w !! this = Some u → m_ptr u ≠ NULL →
  Forall (λ o, this ∉ written o) ops → run ops w = Some (tt, w') →
  objs w' !! this = Some u ∧
  calls_on (m_ptr u) (trace w') = calls_on (m_ptr u) (trace w) ∧
  times_destroyed (m_ptr u) (trace w') = times_destroyed (m_ptr u) (trace w).
Proof.
  revert w. induction ops as [|o ops IH]; intros w Hinv Hcon Hthis Hnn Hall; simpl.
  - by intros [= <-].
  - apply Forall_cons in Hall as [Ho Hall]. destruct Hcon as [Hsup Hcon].
    unfold mbind, M_bind. destruct (step o w) as [[[] w1]|] eqn:Hstep; [|done].
    intros Hrun.
    destruct (step_owner_frame _ _ _ _ _ Hinv Hthis Hnn Ho Hstep) as (Hthis1 & <- & <-).
    apply IH; try done. by eapply step_unique_owner.
Qed.

(** ** Transfer of ownership *)

(** When [a] has been emptied and only [a] and [b] were written to, an
    object that holds the non-null [x] afterwards is [b] or held [x]
    before. *)
Lemma moved_not_duplicated a b x w w' :
  x ≠ NULL → get a w' = Some (NULL, w') →
  (∀ i, i ≠ a → i ≠ b → objs w' !! i = objs w !! i) →
  ∀ i, objs w' !! i = Some (Owning x) →
       i = b ∨ (i ≠ a ∧ objs w !! i = Some (Owning x)).
Proof.
  intros Hx Hget Hframe i Hi.
  destruct (decide (i = b)) as [|Hib]; [by left | right].
  destruct (decide (i = a)) as [->|Hia].
  - exfalso. revert Hget. unfold get, load, mbind, M_bind, mret, M_ret.
    rewrite Hi. simpl. intros [= Hnull]. congruence.
  - split; [done|]. by rewrite <- Hframe.
Qed.

(** C1.  Let [a] hold the address [x], null or not.  After [b] is
    constructed from [a], and after another owning pointer [b] is assigned
    from [a], [a.get ()] is null and [b.get ()] is [x], the value [a.get ()]
    had before.  No other owning pointer changes, so ownership is not
    duplicated: an object that holds a non-null [x] afterwards is [b], or
    is an object other than [a] that held [x] already. *)
Theorem transfer_moves_ownership (a : obj) (x : pointer) (w : world)
    (Ha : objs w !! a = Some (Owning x)) :
  (∀ b, objs w !! b = None →
     ∃ w', construct_from b a w = Some (tt, w') ∧
           get a w' = Some (NULL, w') ∧ get b w' = Some (x, w') ∧
           (∀ i, i ≠ a → i ≠ b → objs w' !! i = objs w !! i) ∧
           (x ≠ NULL → ∀ i, objs w' !! i = Some (Owning x) →
                            i = b ∨ (i ≠ a ∧ objs w !! i = Some (Owning x))))
  ∧
  (∀ D b y, b ≠ a → objs w !! b = Some (Owning y) →
     ∃ w', assign_from D b a w = Some (tt, w') ∧
           get a w' = Some (NULL, w') ∧ get b w' = Some (x, w') ∧
           (∀ i, i ≠ a → i ≠ b → objs w' !! i = objs w !! i) ∧
           (x ≠ NULL → ∀ i, objs w' !! i = Some (Owning x) →
                            i = b ∨ (i ≠ a ∧ objs w !! i = Some (Owning x)))).
Proof.
  assert (∀ b w', get a w' = Some (NULL, w') → get b w' = Some (x, w') →
                  (∀ i, i ≠ a → i ≠ b → objs w' !! i = objs w !! i) →
            get a w' = Some (NULL, w') ∧ get b w' = Some (x, w') ∧
            (∀ i, i ≠ a → i ≠ b → objs w' !! i = objs w !! i) ∧
            (x ≠ NULL → ∀ i, objs w' !! i = Some (Owning x) →
                             i = b ∨ (i ≠ a ∧ objs w !! i = Some (Owning x)))) as Hsum.
  { intros b w' Hga Hgb Hframe. split_and!; [done..|].
    intros Hx. by apply moved_not_duplicated. }
  split.
  - intros b Hb. eexists. split; [by apply (construct_from_fresh b a (Owning x))|].
    assert (b ≠ a) by congruence. apply Hsum; simpl.
    + eapply (get_live _ a (Owning NULL)); simpl.
      by rewrite lookup_insert_ne, lookup_insert_eq.
    + eapply (get_live _ b (Owning x)); simpl. by rewrite lookup_insert_eq.
    + intros i ??. by rewrite !lookup_insert_ne.
  - intros D b y Hne Hb.
    rewrite (assign_from_other D b a (Owning y) (Owning x)) by done. simpl.
    destruct (decide (x ≠ y)) as [Hxy|Hxy].
    + eexists. split; [done|]. apply Hsum; simpl.
      * eapply (get_live _ a (Owning NULL)); simpl.
        by rewrite lookup_insert_ne, lookup_insert_eq.
      * eapply (get_live _ b (Owning x)); simpl. by rewrite lookup_insert_eq.
      * intros i ??. by rewrite !lookup_insert_ne.
    + apply dec_stable in Hxy as ->.
      eexists. split; [done|]. apply Hsum; simpl.
      * eapply (get_live _ a (Owning NULL)); simpl. by rewrite lookup_insert_eq.
      * eapply (get_live _ b (Owning y)); simpl. by rewrite lookup_insert_ne.
      * intros i ??. by rewrite !lookup_insert_ne.
Qed.

Lemma transfer_moves_ownership_witness :
  (∃ w', construct_from 1 0 (World {[ 0 := Owning 7%N ]} []) = Some (tt, w') ∧
         get 0 w' = Some (NULL, w') ∧ get 1 w' = Some (7%N, w')) ∧
  (∃ w', assign_from default_delete 1 0
           (World {[ 0 := Owning 7%N; 1 := Owning 9%N ]} []) = Some (tt, w') ∧
         get 0 w' = Some (NULL, w') ∧ get 1 w' = Some (7%N, w')).
Proof.
  split.
  - destruct (transfer_moves_ownership 0 7%N (World {[ 0 := Owning 7%N ]} []))
      as [Hc _]; [reflexivity|].
    destruct (Hc 1) as (w' & ? & ? & ? & _); [reflexivity|].
    exists w'. by split_and!.
  - destruct (transfer_moves_ownership 0 7%N (World {[ 0 := Owning 7%N; 1 := Owning 9%N ]} []))
      as [_ Ha]; [reflexivity|].
    destruct (Ha default_delete 1 9%N) as (w' & ? & ? & ? & _); [lia|reflexivity|].
    exists w'. by split_and!.
Defined.

(** ** Single ownership over runs *)

(** C2, as the code has it.  In a run in which every raw address a caller
    hands to a constructor, to [reset] or to an assignment from a
    [unique_ptr_base_ref] is null or is held by no other live owning pointer
    at that moment, single ownership holds after every operation: two live
    owning pointers that hold the same non-null address are one object. *)
Theorem single_ownership_under_contract (ops ops' : list op) (w w1 : world)
    (Hinv : unique_owner (objs w))
    (Hcontract : respects_contract (ops ++ ops') w)
    (Hrun : run ops w = Some (tt, w1)) :
  ∀ i j p, p ≠ NULL →
    objs w1 !! i = Some (Owning p) → objs w1 !! j = Some (Owning p) → i = j.
Proof.
  destruct (respects_contract_app _ _ _ _ Hcontract Hrun) as [Hops _].
  pose proof (run_unique_owner _ _ _ Hinv Hops Hrun) as Hinv1.
  intros i j p Hp Hi Hj.
  eapply unique_owner_spec; [exact Hinv1 | exact Hi | exact Hj | done..].
Qed.

Lemma single_ownership_under_contract_witness :
  ∃ w1, run [Construct 0 5%N; ConstructFrom 1 0; Construct 2 6%N; AssignFrom default_delete 1 2]
            (World ∅ []) = Some (tt, w1) ∧
        ∀ i j p, p ≠ NULL →
          objs w1 !! i = Some (Owning p) → objs w1 !! j = Some (Owning p) → i = j.
Proof.
  eexists. split; [vm_compute; reflexivity|].
  apply (single_ownership_under_contract
           [Construct 0 5%N; ConstructFrom 1 0; Construct 2 6%N; AssignFrom default_delete 1 2]
           [Destroy default_delete 1; Destroy default_delete 0; Destroy default_delete 2]
           (World ∅ [])).
  - vm_compute. intros ???. discriminate.
  - apply (bool_decide_unpack _). vm_compute. exact I.
  - vm_compute. reflexivity.
Defined.

(** C2, as stated, fails: the constructor does not inspect the address it is
    given, so two owning pointers constructed from one raw address both hold
    it. *)
Lemma double_supply_two_owners :
  ∃ w1, run [Construct 0 5%N; Construct 1 5%N] (World ∅ []) = Some (tt, w1) ∧
        objs w1 !! 0 = Some (Owning 5%N) ∧ objs w1 !! 1 = Some (Owning 5%N) ∧
        5%N ≠ NULL ∧ 0 ≠ 1 ∧ ¬ unique_owner (objs w1).
Proof.
  eexists. split; [vm_compute; reflexivity|].
  split_and!; [reflexivity | reflexivity | done | done |].
  apply (bool_decide_eq_false_1 (unique_owner _)). vm_compute. reflexivity.
Qed.

(** ** Destruction *)

(** C3, as stated, fails for a null-owning instance: the destructor calls
    [call_deleter] without looking at [m_ptr], so the policy is invoked, on
    the null address. *)
Lemma destructor_null_invokes_policy :
  ∃ w', destructor default_delete 0 (World {[ 0 := Owning NULL ]} []) = Some (tt, w') ∧
        policy_calls (trace w') = [NULL] ∧
        policy_calls (trace w') ≠ policy_calls [].
Proof. eexists. split; [vm_compute; reflexivity|]. split; [reflexivity | discriminate]. Qed.

(** C3, as the code has it.  The destructor invokes the destruction policy
    exactly once, on the address held, null or not, and ends the lifetime of
    the object; a policy invoked on the null address destroys nothing, so
    destroying a null-owning instance frees no pointee.  Across a scope in
    which an instance owns the non-null address [p], is at most observed
    ([get], boolean test) between its construction and its destruction, and
    callers hand out no address that a live owning pointer holds, the policy
    is invoked on [p] exactly once and the pointee is destroyed exactly
    once, both as the last events of the scope. *)
Theorem destructor_invokes_policy_once :
  (∀ D this u w, objs w !! this = Some u →
     ∃ w', destructor D this w = Some (tt, w') ∧
           objs w' = delete this (objs w) ∧
           policy_calls (trace w') = policy_calls (trace w) ++ [m_ptr u] ∧
           destroyed (trace w')
           = destroyed (trace w) ++ if decide (m_ptr u = NULL) then [] else [m_ptr u])
  ∧
  (∀ D this p body w w',
     p ≠ NULL → unique_owner (objs w) →
     Forall (λ o, this ∉ written o) body →
     respects_contract (scope D this p body) w →
     run (scope D this p body) w = Some (tt, w') →
     objs w' !! this = None ∧
     calls_on p (trace w') = S (calls_on p (trace w)) ∧
     times_destroyed p (trace w') = S (times_destroyed p (trace w)) ∧
     ∃ tr, trace w' = tr ++ invocation D p ∧ calls_on p tr = calls_on p (trace w)).
Proof.
  split.
  - intros D this u w Hthis. eexists. split; [by apply destructor_live|]. simpl.
    rewrite policy_calls_app, destroyed_app, policy_calls_invocation, destroyed_invocation.
    done.
  - intros D this p body w w' Hp Hinv Hbody Hcontract. unfold scope in *.
    simpl in Hcontract |- *. destruct Hcontract as [Hsup Hcontract].
    destruct (objs w !! this) as [u|] eqn:Hthis.
    { unfold mbind, M_bind, construct, begin_lifetime. by rewrite Hthis. }
    rewrite (bind_Some _ _ _ _ _ (construct_fresh this p w Hthis)).
    rewrite (construct_fresh this p w Hthis) in Hcontract.
    rewrite run_app.
    set (w0 := World (<[this := Owning p]> (objs w)) (trace w)) in *.
    destruct (run body w0) as [[[] w1]|] eqn:Hbodyrun; [|done].
    destruct (respects_contract_app _ _ _ _ Hcontract Hbodyrun) as [Hcbody _].
    assert (unique_owner (objs w0)) as Hinv0 by by apply unique_owner_insert.
    destruct (run_owner_frame body w0 w1 this (Owning p)) as (Hthis1 & Hcalls & Hdestr);
      [done | done | subst w0; simpl; by rewrite lookup_insert_eq | done | done | done |].
    simpl in *. unfold mbind, M_bind.
    rewrite (destructor_live D this (Owning p)) by done. intros [= <-]; simpl.
    split_and!.
    + by rewrite lookup_delete_eq.
    + rewrite calls_on_app, calls_on_invocation, decide_True by done.
      rewrite Hcalls. subst w0; simpl. lia.
    + rewrite times_destroyed_app, times_destroyed_invocation, decide_True by done.
      rewrite Hdestr. subst w0; simpl. lia.
    + exists (trace w1). split; [done|]. by rewrite Hcalls.
Qed.

Lemma destructor_invokes_policy_once_witness :
  (∃ w', destructor default_delete 0 (World {[ 0 := Owning NULL ]} []) = Some (tt, w') ∧
         policy_calls (trace w') = [NULL] ∧ destroyed (trace w') = []) ∧
  (∃ w', run (scope default_delete 0 5%N
                     [Construct 1 6%N; Get 0; BooleanTest 0; Destroy default_delete 1])
           (World ∅ []) = Some (tt, w') ∧
         calls_on 5%N (trace w') = 1 ∧ times_destroyed 5%N (trace w') = 1).
Proof.
  destruct destructor_invokes_policy_once as [Hone Hscope]. split.
  - destruct (Hone default_delete 0 (Owning NULL) (World {[ 0 := Owning NULL ]} []))
      as (w' & ? & _ & ? & ?); [reflexivity|].
    exists w'. by split_and!.
  - edestruct (Hscope default_delete 0 5%N
                 [Construct 1 6%N; Get 0; BooleanTest 0; Destroy default_delete 1]
                 (World ∅ [])) as (_ & Hcalls & Hdestroyed & _).
    + done.
    + apply (bool_decide_unpack _). vm_compute. exact I.
    + apply (bool_decide_unpack _). vm_compute. exact I.
    + apply (bool_decide_unpack _). vm_compute. exact I.
    + vm_compute. reflexivity.
    + eexists. split; [vm_compute; reflexivity|]. split; [exact Hcalls | exact Hdestroyed].
Defined.

(** ** [reset] and [release] *)

(** C4.  When the instance holds [x], [reset (x)] changes nothing: no
    policy is invoked and the instance still holds [x].  In particular
    [reset ()], and the assignment from NULL written with it, do nothing on
    a null-owning instance. *)
Theorem reset_to_held_address_is_noop (D : deleter) (this : obj) (x : pointer) (w : world)
    (Hthis : objs w !! this = Some (Owning x)) :
  (∃ w', reset D this x w = Some (tt, w') ∧ w' = w ∧
         policy_calls (trace w') = policy_calls (trace w) ∧
         get this w' = Some (x, w'))
  ∧ (x = NULL → reset D this NULL w = Some (tt, w) ∧ assign_null D this w = Some (tt, w)).
Proof.
  assert (reset D this x w = Some (tt, w)) as Hreset.
  { rewrite (reset_live D this x (Owning x)) by done. simpl.
    by rewrite decide_False by (intros H; by apply H). }
  split.
  - exists w. split_and!; [done..|]. by apply (get_live w this (Owning x)).
  - intros ->. done.
Qed.

Lemma reset_to_held_address_is_noop_witness :
  reset default_delete 0 7%N (World {[ 0 := Owning 7%N ]} [])
  = Some (tt, World {[ 0 := Owning 7%N ]} []) ∧
  reset default_delete 0 NULL (World {[ 0 := Owning NULL ]} [])
  = Some (tt, World {[ 0 := Owning NULL ]} []).
Proof.
  split.
  - destruct (reset_to_held_address_is_noop default_delete 0 7%N (World {[ 0 := Owning 7%N ]} []))
      as [(w' & Hreset & -> & _) _]; [reflexivity | exact Hreset].
  - destruct (reset_to_held_address_is_noop default_delete 0 NULL (World {[ 0 := Owning NULL ]} []))
      as [_ Hnull]; [reflexivity|].
    destruct Hnull as [Hreset _]; [reflexivity | exact Hreset].
Defined.

(** C5.  [p = obj.release ()] returns the address held, leaves [obj.get ()]
    null, adds no event to the trace, so the policy is not invoked on [p],
    and touches no other object. *)
Theorem release_transfers_without_destroying (this : obj) (p : pointer) (w : world)
    (Hthis : objs w !! this = Some (Owning p)) :
  ∃ w', release this w = Some (p, w') ∧
        get this w' = Some (NULL, w') ∧
        trace w' = trace w ∧
        calls_on p (trace w') = calls_on p (trace w) ∧
        ∀ i, i ≠ this → objs w' !! i = objs w !! i.
Proof.
  eexists. split; [by apply (release_live w this (Owning p))|]. simpl. split_and!; [|done..|].
  - eapply (get_live _ this (Owning NULL)); simpl. by rewrite lookup_insert_eq.
  - intros i ?. by rewrite lookup_insert_ne.
Qed.

Lemma release_transfers_without_destroying_witness :
  ∃ w', release 0 (World {[ 0 := Owning 7%N ]} []) = Some (7%N, w') ∧
        get 0 w' = Some (NULL, w') ∧ trace w' = [].
Proof.
  destruct (release_transfers_without_destroying 0 7%N (World {[ 0 := Owning 7%N ]} []))
    as (w' & ? & ? & ? & _); [reflexivity|].
  exists w'. by split_and!.
Defined.

(** ** The boolean test *)

(** C6.  The boolean test of a live owning pointer is true exactly when the
    address held is not null, and it changes nothing.  So a
    default-constructed instance tests false, an instance constructed from a
    non-null address tests true, and after [release ()] or [reset ()] an
    instance tests false. *)
Theorem boolean_test_iff_owning (this : obj) (w : world) :
  (∀ u, objs w !! this = Some u →
     ∃ b, boolean_test this w = Some (b, w) ∧ (b = true ↔ m_ptr u ≠ NULL))
  ∧
  (objs w !! this = None →
     (∃ w', (construct this NULL;; boolean_test this) w = Some (false, w')) ∧
     (∀ p, p ≠ NULL → ∃ w', (construct this p;; boolean_test this) w = Some (true, w')))
  ∧
  (∀ u, objs w !! this = Some u →
     (∃ w', (release this;; boolean_test this) w = Some (false, w')) ∧
     (∀ D, ∃ w', (reset D this NULL;; boolean_test this) w = Some (false, w'))).
Proof.
  split_and!.
  - intros u Hthis. exists (bool_decide (m_ptr u ≠ NULL)).
    split; [by apply boolean_test_live|]. by rewrite bool_decide_eq_true.
  - intros Hfresh. split.
    + eexists. rewrite (bind_Some _ _ _ _ _ (construct_fresh this NULL w Hfresh)).
      erewrite boolean_test_live; [|simpl; by rewrite lookup_insert_eq]. done.
    + intros p Hp. eexists. rewrite (bind_Some _ _ _ _ _ (construct_fresh this p w Hfresh)).
      erewrite boolean_test_live; [|simpl; by rewrite lookup_insert_eq]. simpl.
      by rewrite bool_decide_true.
  - intros u Hthis. split.
    + eexists. rewrite (bind_Some _ _ _ _ _ (release_live w this u Hthis)).
      erewrite boolean_test_live; [|simpl; by rewrite lookup_insert_eq]. done.
    + intros D. rewrite (bind_Some _ _ _ _ _ (reset_live D this NULL u w Hthis)).
      case_decide as Hne.
      * eexists. erewrite boolean_test_live; [|simpl; by rewrite lookup_insert_eq]. done.
      * eexists. erewrite boolean_test_live by exact Hthis.
        rewrite <- Hne. done.
Qed.

Lemma boolean_test_iff_owning_witness :
  (∃ w', (construct 0 NULL;; boolean_test 0) (World ∅ []) = Some (false, w')) ∧
  (∃ w', (construct 0 7%N;; boolean_test 0) (World ∅ []) = Some (true, w')) ∧
  (∃ w', (release 0;; boolean_test 0) (World {[ 0 := Owning 7%N ]} []) = Some (false, w')) ∧
  (∃ w', (reset default_delete 0 NULL;; boolean_test 0) (World {[ 0 := Owning 7%N ]} [])
         = Some (false, w')).
Proof.
  destruct (boolean_test_iff_owning 0 (World ∅ [])) as (_ & Hfresh & _).
  destruct Hfresh as [Hdefault Hown]; [reflexivity|].
  destruct (boolean_test_iff_owning 0 (World {[ 0 := Owning 7%N ]} [])) as (_ & _ & Hlive).
  destruct (Hlive (Owning 7%N)) as [Hrelease Hreset]; [reflexivity|].
  split_and!; [exact Hdefault | apply Hown; done | exact Hrelease | apply Hreset].
Defined.

(** ** Assignment from an owner of the same address *)

Lemma invocation_NULL D : invocation D NULL = [Called D NULL].
Proof. unfold invocation. by rewrite decide_True. Qed.

(** C7.  When [other] holds the address [x] that this instance holds, and
    in particular when [other] is this instance, the assignment from
    [other] does not invoke the policy on [x], destroys nothing, and leaves
    this instance holding [x].  Every object but [other] is as before, and
    in a self-assignment so is the whole store. *)
Theorem assign_from_same_address_keeps_it (D : deleter) (this other : obj) (x : pointer)
    (w : world)
    (Hthis : objs w !! this = Some (Owning x))
    (Hother : objs w !! other = Some (Owning x)) :
  ∃ w', assign_from D this other w = Some (tt, w') ∧
        get this w' = Some (x, w') ∧
        calls_on x (trace w') = calls_on x (trace w) ∧
        destroyed (trace w') = destroyed (trace w) ∧
        (other = this → objs w' = objs w) ∧
        (∀ i, i ≠ other → objs w' !! i = objs w !! i).
Proof.
  destruct (decide (this = other)) as [<-|Hne].
  - rewrite (assign_from_self D this (Owning x)) by done. simpl.
    eexists. split; [done|]. simpl. split_and!; [|..|done|done].
    + by apply (get_live _ this (Owning x)).
    + case_decide as Hx; [by rewrite app_nil_r|].
      rewrite <- invocation_NULL. apply calls_on_other. congruence.
    + case_decide; [by rewrite app_nil_r|]. by rewrite destroyed_app, app_nil_r.
  - rewrite (assign_from_other D this other (Owning x) (Owning x)) by done. simpl.
    rewrite decide_False by (intros H; by apply H).
    eexists. split; [done|]. simpl. split_and!; [|done|done|congruence|].
    + eapply (get_live _ this (Owning x)); simpl. by rewrite lookup_insert_ne.
    + intros i ?. by rewrite lookup_insert_ne.
Qed.

Lemma assign_from_same_address_keeps_it_witness :
  ∃ w', assign_from default_delete 0 0 (World {[ 0 := Owning 7%N ]} []) = Some (tt, w') ∧
        get 0 w' = Some (7%N, w') ∧ calls_on 7%N (trace w') = 0 ∧ destroyed (trace w') = [].
Proof.
  destruct (assign_from_same_address_keeps_it default_delete 0 0 7%N
              (World {[ 0 := Owning 7%N ]} [])) as (w' & ? & ? & ? & ? & _);
    [reflexivity | reflexivity |].
  exists w'. by split_and!.
Defined.

(** ** Conversion between pointee types *)

(** C8.  Let [d] hold the non-null address [X].  Converting [d] to an
    owning pointer [b] of another pointee type, with
    [operator unique_ptr_base<T1, D1>], and assigning the converted [d] to
    an existing [b], each leave [b.get ()] equal to [X] and [d.get ()]
    null, and do not invoke the policy on [X]: the policy is entered on the
    null address of the emptied temporaries, and in the assignment on the
    address [b] held before.  The conversion destroys nothing. *)
Theorem conversion_moves_ownership (D1 : deleter) (d b tmp : obj) (X : pointer) (w : world)
    (HX : X ≠ NULL)
    (Hd : objs w !! d = Some (Owning X))
    (Htmp : objs w !! tmp = None)
    (Htb : tmp ≠ b) :
  (objs w !! b = None →
     ∃ w', operator_convert D1 d tmp b w = Some (tt, w') ∧
           get b w' = Some (X, w') ∧ get d w' = Some (NULL, w') ∧
           calls_on X (trace w') = calls_on X (trace w) ∧
           policy_calls (trace w') = policy_calls (trace w) ++ [NULL] ∧
           destroyed (trace w') = destroyed (trace w))
  ∧
  (∀ y conv, objs w !! b = Some (Owning y) → b ≠ d →
             objs w !! conv = None → conv ≠ tmp →
     ∃ w', assign_converted D1 b d tmp conv w = Some (tt, w') ∧
           get b w' = Some (X, w') ∧ get d w' = Some (NULL, w') ∧
           calls_on X (trace w') = calls_on X (trace w) ∧
           destroyed (trace w')
           = destroyed (trace w) ++ if decide (y = X ∨ y = NULL) then [] else [y]).
Proof.
  assert (d ≠ tmp) as Hdt by congruence.
  split.
  - intros Hb. assert (d ≠ b) by congruence.
    eexists. split; [by apply (operator_convert_fresh D1 d tmp b (Owning X))|]. simpl.
    split_and!.
    + eapply (get_live _ b (Owning X)); simpl. by rewrite lookup_insert_eq.
    + eapply (get_live _ d (Owning NULL)); simpl.
      by rewrite lookup_insert_ne, lookup_insert_eq.
    + apply calls_on_other. congruence.
    + by rewrite policy_calls_app, policy_calls_invocation.
    + by rewrite destroyed_app, destroyed_invocation, decide_True, app_nil_r.
  - intros y conv Hb Hbd Hconv Hct.
    assert (d ≠ conv) by congruence. assert (b ≠ conv) by congruence.
    unfold assign_converted, assign_through_ref.
    rewrite (bind_Some _ _ _ _ _
               (operator_convert_fresh D1 d tmp conv (Owning X) w Hd Htmp Hconv
                  (not_eq_sym Hct))).
    erewrite bind_Some; last first.
    { erewrite bind_Some; last first.
      { apply (operator_ref_live _ conv (Owning X)). simpl. by rewrite lookup_insert_eq. }
      apply (assign_from_ref_live D1 b _ (Owning y)). simpl.
      by rewrite !lookup_insert_ne. }
    simpl. case_decide as Hy.
    + erewrite (destructor_live D1 conv (Owning NULL)); last first.
      { simpl. by rewrite lookup_insert_ne, lookup_insert_eq. }
      eexists. split; [done|]. simpl. split_and!.
      * eapply (get_live _ b (Owning X)); simpl.
        by rewrite lookup_delete_ne, lookup_insert_eq.
      * eapply (get_live _ d (Owning NULL)); simpl. by simplify_map_eq.
      * rewrite !calls_on_other by congruence. done.
      * rewrite !destroyed_app, !destroyed_invocation, decide_True, !app_nil_r by done.
        f_equal. destruct (decide (y = NULL)) as [Hn|Hn].
        -- rewrite decide_True; [done | by right].
        -- rewrite decide_False; [done|]. intros [?|?]; congruence.
    + subst y. erewrite (destructor_live D1 conv (Owning NULL)); last first.
      { simpl. by rewrite lookup_insert_eq. }
      eexists. split; [done|]. simpl. split_and!.
      * eapply (get_live _ b (Owning X)); simpl. by simplify_map_eq.
      * eapply (get_live _ d (Owning NULL)); simpl. by simplify_map_eq.
      * rewrite !calls_on_other by congruence. done.
      * rewrite !destroyed_app, !destroyed_invocation, decide_True, !app_nil_r by done.
        rewrite decide_True; [by rewrite app_nil_r | by left].
Qed.

Lemma conversion_moves_ownership_witness :
  (∃ w', operator_convert default_delete 0 2 1 (World {[ 0 := Owning 7%N ]} [])
         = Some (tt, w') ∧
         get 1 w' = Some (7%N, w') ∧ get 0 w' = Some (NULL, w') ∧
         policy_calls (trace w') = [NULL] ∧ destroyed (trace w') = []) ∧
  (∃ w', assign_converted default_delete 1 0 2 3
           (World {[ 0 := Owning 7%N; 1 := Owning 9%N ]} []) = Some (tt, w') ∧
         get 1 w' = Some (7%N, w') ∧ get 0 w' = Some (NULL, w') ∧
         calls_on 7%N (trace w') = 0 ∧ destroyed (trace w') = [9%N]).
Proof.
  split.
  - destruct (conversion_moves_ownership default_delete 0 1 2 7%N
                (World {[ 0 := Owning 7%N ]} []))
      as [Hfresh _]; [done | reflexivity | reflexivity | lia |].
    destruct Hfresh as (w' & ? & ? & ? & _ & ? & ?); [reflexivity|].
    exists w'. by split_and!.
  - destruct (conversion_moves_ownership default_delete 0 1 2 7%N
                (World {[ 0 := Owning 7%N; 1 := Owning 9%N ]} []))
      as [_ Hassign]; [done | reflexivity | reflexivity | lia |].
    destruct (Hassign 9%N 3) as (w' & ? & ? & ? & ? & ?); [reflexivity | lia | reflexivity | lia |].
    exists w'. by split_and!.
Defined.

(** ** Comparisons through the safe bool conversion *)

(** C9.  [operator==] and [operator!=] over two [safe_bool] values both
    yield false for every pair of operands, whatever the two operands'
    [explicit_operator_bool] answer. *)
Theorem safe_bool_comparisons_yield_false {T U : Type} `{safe_bool T} `{safe_bool U}
    (lhs : T) (rhs : U) :
  SafeBool.operator_eq lhs rhs = false ∧ SafeBool.operator_ne lhs rhs = false.
Proof. split; reflexivity. Qed.

(** ** [gdb::move] *)

Lemma move_live D v result p x w :
  objs w !! p = Some (Owning x) → objs w !! v = None → objs w !! result = None →
  v ≠ result →
  move D v result p w
  = Some (tt, World (delete v (<[result := Owning x]>
                       (<[v := Owning NULL]>
                          (<[v := Owning x]> (<[p := Owning NULL]> (objs w))))))
                    (trace w ++ [Called D NULL])).
Proof.
  intros Hp Hv Hres Hne. unfold move.
  assert (v ≠ p) by congruence. assert (result ≠ p) by congruence.
  rewrite (bind_Some _ _ _ _ _ (construct_from_fresh v p (Owning x) w Hp Hv)).
  erewrite bind_Some; last first.
  { apply (construct_from_fresh result v (Owning x)); simpl.
    - by rewrite lookup_insert_eq.
    - by rewrite !lookup_insert_ne. }
  erewrite (destructor_live D v (Owning NULL)); last first.
  { simpl. by rewrite lookup_insert_ne, lookup_insert_eq. }
  simpl. by rewrite invocation_NULL.
Qed.

(** C10.  Let [p] hold [x].  The call [gdb::move (p)] copy-constructs its
    by-value parameter [v] from [p], and at that point [p] already holds
    null and [v] holds [x].  When [move] has returned, [p.get ()] is null and
    the object [u] it returns holds [x]; the same is true of a [u] built
    from a returned temporary.  Nothing is destroyed, and the policy is
    invoked only on the null address of the emptied parameter and temporary,
    so not on a non-null [x]. *)
Theorem move_transfers_ownership (D : deleter) (p v u : obj) (x : pointer) (w : world)
    (Hp : objs w !! p = Some (Owning x))
    (Hv : objs w !! v = None)
    (Hu : objs w !! u = None)
    (Hvu : v ≠ u) :
  (∃ w1, construct_from v p w = Some (tt, w1) ∧
         get p w1 = Some (NULL, w1) ∧ get v w1 = Some (x, w1) ∧ trace w1 = trace w)
  ∧
  (∃ w', move D v u p w = Some (tt, w') ∧
         get p w' = Some (NULL, w') ∧ get u w' = Some (x, w') ∧
         policy_calls (trace w') = policy_calls (trace w) ++ [NULL] ∧
         destroyed (trace w') = destroyed (trace w) ∧
         (x ≠ NULL → calls_on x (trace w') = calls_on x (trace w)))
  ∧
  (∀ tmp, objs w !! tmp = None → tmp ≠ v → tmp ≠ u →
     ∃ w', construct_from_move D u v tmp p w = Some (tt, w') ∧
           get p w' = Some (NULL, w') ∧ get u w' = Some (x, w') ∧
           policy_calls (trace w') = policy_calls (trace w) ++ [NULL; NULL] ∧
           destroyed (trace w') = destroyed (trace w) ∧
           (x ≠ NULL → calls_on x (trace w') = calls_on x (trace w))).
Proof.
  assert (v ≠ p) by congruence. assert (u ≠ p) by congruence.
  split_and!.
  - eexists. split; [by apply (construct_from_fresh v p (Owning x))|]. simpl.
    split_and!; [| |done].
    + eapply (get_live _ p (Owning NULL)); simpl.
      by rewrite lookup_insert_ne, lookup_insert_eq.
    + eapply (get_live _ v (Owning x)); simpl. by rewrite lookup_insert_eq.
  - eexists. split; [by apply move_live|]. simpl. split_and!.
    + eapply (get_live _ p (Owning NULL)); simpl.
      by simplify_map_eq.
    + eapply (get_live _ u (Owning x)); simpl.
      by rewrite lookup_delete_ne, lookup_insert_eq.
    + by rewrite policy_calls_app.
    + by rewrite destroyed_app, app_nil_r.
    + intros Hx. rewrite <- invocation_NULL. apply calls_on_other. congruence.
  - intros tmp Htmp Htv Htu. assert (tmp ≠ p) by congruence.
    unfold construct_from_move.
    rewrite (bind_Some _ _ _ _ _ (move_live D v tmp p x w Hp Hv Htmp (not_eq_sym Htv))).
    unfold construct_through_ref.
    erewrite bind_Some; last first.
    { erewrite bind_Some; last first.
      { apply (operator_ref_live _ tmp (Owning x)); simpl.
        by rewrite lookup_delete_ne, lookup_insert_eq. }
      apply construct_from_ref_fresh; simpl.
      by simplify_map_eq. }
    erewrite (destructor_live D tmp (Owning NULL)); last first.
    { simpl. by rewrite lookup_insert_ne, lookup_insert_eq. }
    eexists. split; [done|]. simpl. split_and!.
    + eapply (get_live _ p (Owning NULL)); simpl.
      by simplify_map_eq.
    + eapply (get_live _ u (Owning x)); simpl.
      by rewrite lookup_delete_ne, lookup_insert_eq.
    + rewrite invocation_NULL, !policy_calls_app. simpl. by rewrite <- (assoc_L (++)).
    + by rewrite invocation_NULL, !destroyed_app, !app_nil_r.
    + intros Hx. rewrite calls_on_other by congruence.
      rewrite <- invocation_NULL. apply calls_on_other. congruence.
Qed.

Lemma move_transfers_ownership_witness :
  (∃ w', move default_delete 1 2 0 (World {[ 0 := Owning 7%N ]} []) = Some (tt, w') ∧
         get 0 w' = Some (NULL, w') ∧ get 2 w' = Some (7%N, w') ∧
         destroyed (trace w') = []) ∧
  (∃ w', construct_from_move default_delete 2 1 3 0 (World {[ 0 := Owning 7%N ]} [])
         = Some (tt, w') ∧
         get 0 w' = Some (NULL, w') ∧ get 2 w' = Some (7%N, w') ∧
         destroyed (trace w') = []).
Proof.
  destruct (move_transfers_ownership default_delete 0 1 2 7%N (World {[ 0 := Owning 7%N ]} []))
    as (_ & Hmove & Htmp); [reflexivity | reflexivity | reflexivity | lia |].
  split.
  - destruct Hmove as (w' & ? & ? & ? & _ & ? & _). exists w'. by split_and!.
  - destruct (Htmp 3) as (w' & ? & ? & ? & _ & ? & _); [reflexivity | lia | lia |].
    exists w'. by split_and!.
Defined.

(** ** Small runs *)

(** [reset] to another address destroys the pointee held before. *)
Example reset_destroys_previous :
  reset default_delete 0 9%N (World {[ 0 := Owning 7%N ]} [])
  = Some (tt, World {[ 0 := Owning 9%N ]} [Called default_delete 7%N; Deleted 7%N]).
Proof. vm_compute. reflexivity. Qed.

(** A self-assignment keeps the address; the policy sees the null address
    in between. *)
Example self_assignment_trace :
  assign_from default_delete 0 0 (World {[ 0 := Owning 7%N ]} [])
  = Some (tt, World {[ 0 := Owning 7%N ]} [Called default_delete NULL]).
Proof. vm_compute. reflexivity. Qed.

(** An array owner going out of scope. *)
Example array_scope_trace :
  run (scope default_delete_array 0 5%N [Get 0]) (World ∅ [])
  = Some (tt, World ∅ [Called default_delete_array 5%N; DeletedArray 5%N]).
Proof. vm_compute. reflexivity. Qed.

(** An object outside its lifetime cannot be used. *)
Example use_after_destruction :
  run [Construct 0 5%N; Destroy default_delete 0; Get 0] (World ∅ []) = None.
Proof. vm_compute. reflexivity. Qed.

(** ** Every operation, case by case *)

Lemma step_effect o w w' : step o w = Some (tt, w') → effect w o w'.
Proof.
  destruct o as [this p|this a|this ref|D this a|D this|D this ref|this|this|this
                 |D this p|D this|this|D1 this tmp result]; simpl.
  - destruct (objs w !! this) as [u|] eqn:Hthis; [outside_lifetime Hthis|].
    rewrite construct_fresh by done. intros [= <-]. by constructor.
  - destruct (objs w !! a) as [v|] eqn:Ha; [|outside_lifetime Ha].
    destruct (objs w !! this) as [u|] eqn:Hthis.
    { unfold construct_from. rewrite (bind_Some _ _ _ _ _ (release_live _ _ _ Ha)).
      unfold begin_lifetime; simpl.
      destruct (decide (a = this)) as [->|?];
        [by rewrite lookup_insert_eq | by rewrite lookup_insert_ne, Hthis]. }
    rewrite (construct_from_fresh this a v) by done. intros [= <-]. by constructor.
  - destruct (objs w !! this) as [u|] eqn:Hthis; [outside_lifetime Hthis|].
    rewrite construct_from_ref_fresh by done. intros [= <-]. by constructor.
  - destruct (objs w !! a) as [v|] eqn:Ha; [|outside_lifetime Ha].
    destruct (decide (this = a)) as [->|Hne].
    { rewrite (assign_from_self D a v) by done. intros [= <-].
      rewrite <- invocation_NULL. by constructor. }
    destruct (objs w !! this) as [u|] eqn:Hthis.
    2:{ unfold assign_from. rewrite (bind_Some _ _ _ _ _ (release_live _ _ _ Ha)).
        unfold reset, load, mbind, M_bind; simpl.
        by rewrite lookup_insert_ne, Hthis. }
    rewrite (assign_from_other D this a u v) by done. intros [= <-].
    case_decide.
    + by apply effect_AssignFrom_other.
    + by apply (effect_AssignFrom_same w D this a u v).
  - destruct (objs w !! this) as [u|] eqn:Hthis; [|outside_lifetime Hthis].
    unfold assign_null. rewrite (reset_live D this NULL u) by done. intros [= <-].
    case_decide.
    + apply effect_AssignNull; [done | congruence].
    + by apply (effect_AssignNull_keep w D this u).
  - destruct (objs w !! this) as [u|] eqn:Hthis; [|outside_lifetime Hthis].
    rewrite (assign_from_ref_live D this ref u) by done. intros [= <-].
    case_decide.
    + by apply effect_AssignFromRef.
    + by apply (effect_AssignFromRef_keep w D this ref u).
  - destruct (objs w !! this) as [u|] eqn:Hthis; [|outside_lifetime Hthis].
    rewrite (bind_Some _ _ _ _ _ (get_live _ _ _ Hthis)). intros [= <-].
    by apply (effect_Get w this u).
  - destruct (objs w !! this) as [u|] eqn:Hthis; [|outside_lifetime Hthis].
    rewrite (bind_Some _ _ _ _ _ (boolean_test_live _ _ _ Hthis)). intros [= <-].
    by apply (effect_BooleanTest w this u).
  - destruct (objs w !! this) as [u|] eqn:Hthis; [|outside_lifetime Hthis].
    rewrite (bind_Some _ _ _ _ _ (release_live _ _ _ Hthis)). intros [= <-].
    by apply (effect_Release w this u).
  - destruct (objs w !! this) as [u|] eqn:Hthis; [|outside_lifetime Hthis].
    rewrite (reset_live D this p u) by done. intros [= <-].
    case_decide.
    + by apply effect_Reset.
    + by apply (effect_Reset_keep w D this p u).
  - destruct (objs w !! this) as [u|] eqn:Hthis; [|outside_lifetime Hthis].
    rewrite (destructor_live D this u) by done. intros [= <-]. by constructor.
  - destruct (objs w !! this) as [u|] eqn:Hthis; [|outside_lifetime Hthis].
    rewrite (bind_Some _ _ _ _ _ (operator_ref_live _ _ _ Hthis)). intros [= <-].
    by apply (effect_ToRef w this u).
  - intros Hstep.
    destruct (operator_convert_inv _ _ _ _ _ _ Hstep) as (u & Hthis & Htmp & Hres & Hne).
    rewrite (operator_convert_fresh D1 this tmp result u) in Hstep by done.
    injection Hstep as <-. by constructor.
Qed.

Lemma held_spec m q : held m q ↔ ∃ i u, m !! i = Some u ∧ m_ptr u = q.
Proof. done. Qed.

(** The non-null addresses held after an operation were held before it or
    were handed in by the caller. *)
Lemma effect_holders w o w' q :
  effect w o w' → q ≠ NULL → held (objs w') q →
  held (objs w) q ∨ ∃ t, supplied o = Some (t, q).
Proof.
  intros Heff Hq (j & x & Hj & <-)%held_spec.
  destruct Heff; simpl in *;
    rewrite ?lookup_insert, ?lookup_delete in Hj;
    repeat case_decide; simplify_eq/=;
    try (left; apply held_spec; by eauto);
    try (right; by eauto).
Qed.

(** An operation adds no event, or one invocation of its policy: on the
    null address, or on an address that was held and, under single
    ownership, is held no longer. *)
Lemma effect_events w o w' :
  effect w o w' →
  trace w' = trace w ∨
  ∃ D q, trace w' = trace w ++ invocation D q ∧ op_policy o = Some D ∧
         (q = NULL ∨ (held (objs w) q ∧ (unique_owner (objs w) → ¬ held (objs w') q))).
Proof.
  assert (∀ m this u, unique_owner m → m !! this = Some u → m_ptr u ≠ NULL →
            ∀ j x, m !! j = Some x → m_ptr x = m_ptr u → j = this) as Huniq.
  { intros m this u Hm Hthis Hnn j x Hj Heq.
    eapply unique_owner_spec; [exact Hm | exact Hj | exact Hthis | done | congruence]. }
  destruct 1 as [| | |D this u|D this a u v|D this a u v|D this u|D this u|D this ref u
                 |D this ref u| | | |D this p u|D this p u|D this u|
                 |D1 this tmp result v]; simpl;
    try (by left).
  - case_decide; [left; by rewrite app_nil_r|]. right. exists D, NULL. by eauto.
  - right. exists D, (m_ptr u). split_and!; [done..|].
    destruct (decide (m_ptr u = NULL)); [by left | right]. split; [apply held_spec; by eauto|].
    intros Hm (j & x & Hj & Hx)%held_spec.
    rewrite !lookup_insert in Hj. repeat case_decide; simplify_eq/=.
    pose proof (Huniq _ _ _ Hm H0 n j x Hj Hx). done.
  - right. exists D, (m_ptr u). split_and!; [done..|]. right.
    split; [apply held_spec; by eauto|].
    intros Hm (j & x & Hj & Hx)%held_spec.
    rewrite !lookup_insert in Hj. repeat case_decide; simplify_eq/=.
    pose proof (Huniq _ _ _ Hm H H0 j x Hj Hx). done.
  - right. exists D, (m_ptr u). split_and!; [done..|].
    destruct (decide (m_ptr u = NULL)); [by left | right]. split; [apply held_spec; by eauto|].
    intros Hm (j & x & Hj & Hx)%held_spec.
    rewrite !lookup_insert in Hj. repeat case_decide; simplify_eq/=.
    pose proof (Huniq _ _ _ Hm H n j x Hj Hx). done.
  - right. exists D, (m_ptr u). split_and!; [done..|].
    destruct (decide (m_ptr u = NULL)); [by left | right]. split; [apply held_spec; by eauto|].
    intros Hm (j & x & Hj & Hx)%held_spec.
    rewrite !lookup_insert in Hj. repeat case_decide; simplify_eq/=.
    pose proof (Huniq _ _ _ Hm H n j x Hj Hx). done.
  - right. exists D, (m_ptr u). split_and!; [done..|].
    destruct (decide (m_ptr u = NULL)); [by left | right]. split; [apply held_spec; by eauto|].
    intros Hm (j & x & Hj & Hx)%held_spec.
    rewrite lookup_delete in Hj. repeat case_decide; simplify_eq/=.
    pose proof (Huniq _ _ _ Hm H n j x Hj Hx). done.
  - right. exists D1, NULL. split_and!; [done | done | by left].
Qed.

Lemma scalar_deleted_invocation D q :
  scalar_deleted (invocation D q)
  = if decide (D = default_delete ∧ q ≠ NULL) then [q] else [].
Proof.
  unfold invocation, scalar_deleted.
  destruct D; case_decide; simpl; repeat case_decide; try done; intuition congruence.
Qed.

Lemma array_deleted_invocation D q :
  array_deleted (invocation D q)
  = if decide (D = default_delete_array ∧ q ≠ NULL) then [q] else [].
Proof.
  unfold invocation, array_deleted.
  destruct D; case_decide; simpl; repeat case_decide; try done; intuition congruence.
Qed.

(** ** No pointee is destroyed twice *)

Lemma step_no_dangling o w w' :
  unique_owner (objs w) → no_dangling w → unused_supply o w →
  step o w = Some (tt, w') → no_dangling w'.
Proof.
  intros Hinv (Hnodup & Hnull & Hlive) Hsup Hstep%step_effect.
  assert (∀ j x, objs w' !! j = Some x → m_ptr x ∉ destroyed (trace w)) as Hlive'.
  { intros j x Hj. destruct (decide (m_ptr x = NULL)) as [->|Hnn]; [done|].
    destruct (effect_holders w o w' (m_ptr x) Hstep Hnn) as [(i & u & Hi & Hu)|[t Ht]].
    - apply held_spec. by eauto.
    - rewrite <- Hu. by apply (Hlive i u).
    - unfold unused_supply in Hsup. rewrite Ht in Hsup. by destruct Hsup. }
  destruct (effect_events w o w' Hstep) as [Htr|(D & q & Htr & _ & Hq)];
    unfold no_dangling; rewrite Htr.
  { split_and!; [done..|]. intros j x Hj. by eapply Hlive'. }
  rewrite destroyed_app, destroyed_invocation.
  case_decide as Hqn.
  { rewrite app_nil_r. split_and!; [done..|]. intros j x Hj. by eapply Hlive'. }
  destruct Hq as [?|[Hheld Hgone]]; [done|].
  destruct Hheld as (i & u & Hi & Hu).
  assert (q ∉ destroyed (trace w)) as Hfresh. { rewrite <- Hu. by apply (Hlive i u). }
  split_and!.
  - apply NoDup_app. split_and!; [done| |apply NoDup_singleton].
    intros y Hy ->%list_elem_of_singleton. done.
  - rewrite elem_of_app, list_elem_of_singleton. intros [?|?]; [done | congruence].
  - intros j x Hj. rewrite elem_of_app, list_elem_of_singleton. intros [Hin|Heq].
    + by eapply Hlive'.
    + apply (Hgone Hinv). apply held_spec. by eauto.
Qed.

Lemma run_no_dangling ops w w' :
  unique_owner (objs w) → no_dangling w →
  respects_contract ops w → supplies_unused ops w →
  run ops w = Some (tt, w') → no_dangling w'.
Proof.
  revert w. induction ops as [|o ops IH]; intros w Hinv Hnd; simpl.
  - by intros _ _ [= <-].
  - unfold mbind, M_bind. intros [Hsup Hcon] [Hun Hunused].
    destruct (step o w) as [[[] w1]|] eqn:Hstep; [|done].
    apply IH; [by eapply step_unique_owner | by eapply step_no_dangling | done..].
Qed.

(** ** What a run destroys and how *)

Lemma run_destroyed_origin ops w w' q :
  run ops w = Some (tt, w') → q ∈ destroyed (trace w') →
  q ∈ destroyed (trace w) ∨
  (q ≠ NULL ∧ (held (objs w) q ∨ q ∈ supplied_addresses ops)).
Proof.
  revert w. induction ops as [|o ops IH]; intros w; simpl.
  - intros [= <-]. by left.
  - unfold mbind, M_bind.
    destruct (step o w) as [[[] w1]|] eqn:Hstep; [|done].
    apply step_effect in Hstep. intros Hrun Hq.
    assert (q ∈ destroyed (trace w1) → q ∈ destroyed (trace w) ∨ (q ≠ NULL ∧ held (objs w) q))
      as Hfirst.
    { destruct (effect_events w o w1 Hstep) as [->|(D & q' & -> & _ & Hq')]; [by left|].
      rewrite destroyed_app, destroyed_invocation, elem_of_app.
      intros [?|Hin]; [by left|]. case_decide; [by apply elem_of_nil in Hin|].
      apply list_elem_of_singleton in Hin as ->. destruct Hq' as [?|[? _]]; [done | by right]. }
    destruct (IH w1 Hrun Hq) as [Hin|[Hnn [Hheld|Hsup]]].
    + destruct (Hfirst Hin) as [?|[? ?]]; [by left | right; by eauto].
    + destruct (effect_holders w o w1 q Hstep Hnn Hheld) as [?|[t Ht]];
        [right; by eauto|].
      right. split; [done|]. right. unfold supplied_addresses. simpl. rewrite Ht. simpl.
      by left.
    + right. split; [done|]. right. unfold supplied_addresses in *. simpl.
      destruct (snd <$> supplied o); [by right | done].
Qed.

Lemma run_deleted_by ops w w' :
  run ops w = Some (tt, w') →
  (Forall (λ o, op_policy o ≠ Some default_delete) ops →
   scalar_deleted (trace w') = scalar_deleted (trace w)) ∧
  (Forall (λ o, op_policy o ≠ Some default_delete_array) ops →
   array_deleted (trace w') = array_deleted (trace w)).
Proof.
  revert w. induction ops as [|o ops IH]; intros w; simpl.
  - by intros [= <-].
  - unfold mbind, M_bind.
    destruct (step o w) as [[[] w1]|] eqn:Hstep; [|done].
    apply step_effect in Hstep. intros Hrun. destruct (IH w1 Hrun) as [IHs IHa].
    split; intros [Ho Hops]%Forall_cons.
    + rewrite IHs by done.
      destruct (effect_events w o w1 Hstep) as [->|(D & q & -> & HD & _)]; [done|].
      unfold scalar_deleted at 1. rewrite omap_app. fold (scalar_deleted (trace w)).
      fold (scalar_deleted (invocation D q)). rewrite scalar_deleted_invocation.
      rewrite decide_False; [by rewrite app_nil_r|]. intros [-> _]. done.
    + rewrite IHa by done.
      destruct (effect_events w o w1 Hstep) as [->|(D & q & -> & HD & _)]; [done|].
      unfold array_deleted at 1. rewrite omap_app. fold (array_deleted (trace w)).
      fold (array_deleted (invocation D q)). rewrite array_deleted_invocation.
      rewrite decide_False; [by rewrite app_nil_r|]. intros [-> _]. done.
Qed.

Lemma run_policy_calls_bound ops w w' :
  run ops w = Some (tt, w') →
  length (policy_calls (trace w'))
  ≤ length (policy_calls (trace w)) + length (filter (λ o, is_Some (op_policy o)) ops).
Proof.
  revert w. induction ops as [|o ops IH]; intros w; simpl.
  - intros [= <-]. lia.
  - unfold mbind, M_bind.
    destruct (step o w) as [[[] w1]|] eqn:Hstep; [|done].
    apply step_effect in Hstep. intros Hrun. specialize (IH w1 Hrun).
    rewrite filter_cons.
    destruct (effect_events w o w1 Hstep) as [Htr|(D & q & Htr & HD & _)].
    + rewrite Htr in IH. case_decide; simpl; lia.
    + rewrite Htr, policy_calls_app, policy_calls_invocation, length_app in IH. simpl in IH.
      rewrite decide_True by (rewrite HD; by eexists). simpl. lia.
Qed.

Lemma run_no_policy_trace ops w w' :
  Forall (λ o, op_policy o = None) ops → run ops w = Some (tt, w') → trace w' = trace w.
Proof.
  revert w. induction ops as [|o ops IH]; intros w Hall; simpl.
  - by intros [= <-].
  - apply Forall_cons in Hall as [Ho Hall]. unfold mbind, M_bind.
    destruct (step o w) as [[[] w1]|] eqn:Hstep; [|done].
    apply step_effect in Hstep. intros Hrun. rewrite (IH w1 Hall Hrun).
    destruct (effect_events w o w1 Hstep) as [?|(D & q & _ & HD & _)]; [done | congruence].
Qed.

(** X1.  No double free.  In a run whose caller hands in only addresses
    that are null, or are held by no other live owning pointer and were
    never destroyed, started where single ownership holds and no owning
    pointer dangles, no address is destroyed twice and no live owning
    pointer holds a destroyed address. *)
Theorem no_pointee_destroyed_twice (ops : list op) (w w' : world)
    (Hinv : unique_owner (objs w))
    (Hclean : no_dangling w)
    (Hcontract : respects_contract ops w)
    (Hunused : supplies_unused ops w)
    (Hrun : run ops w = Some (tt, w')) :
  NoDup (destroyed (trace w')) ∧
  ∀ i u, objs w' !! i = Some u → m_ptr u ∉ destroyed (trace w').
Proof.
  destruct (run_no_dangling ops w w') as (Hnodup & _ & Hlive); try done.
Qed.

Lemma no_pointee_destroyed_twice_witness :
  ∃ w', run [Construct 0 5%N; Construct 1 6%N; AssignFrom default_delete 0 1;
             Reset default_delete 1 7%N; Destroy default_delete 0; Destroy default_delete 1]
            (World ∅ []) = Some (tt, w') ∧
        destroyed (trace w') = [5%N; 6%N; 7%N] ∧ NoDup (destroyed (trace w')).
Proof.
  eexists. split; [vm_compute; reflexivity|]. split; [reflexivity|].
  eapply (no_pointee_destroyed_twice
            [Construct 0 5%N; Construct 1 6%N; AssignFrom default_delete 0 1;
             Reset default_delete 1 7%N; Destroy default_delete 0; Destroy default_delete 1]
            (World ∅ [])).
  - apply (bool_decide_unpack _). vm_compute. exact I.
  - apply (bool_decide_unpack _). vm_compute. exact I.
  - apply (bool_decide_unpack _). vm_compute. exact I.
  - apply (bool_decide_unpack _). vm_compute. exact I.
  - vm_compute. reflexivity.
Defined.

(** X2.  Whatever a run destroys was owned: an address destroyed during a
    run is not null, and was held by a live owning pointer when the run
    began or was handed to one by the caller during the run. *)
Theorem destroyed_addresses_were_owned (ops : list op) (w w' : world) (q : pointer)
    (Hrun : run ops w = Some (tt, w'))
    (Hq : q ∈ destroyed (trace w')) :
  q ∈ destroyed (trace w) ∨
  (q ≠ NULL ∧ (held (objs w) q ∨ q ∈ supplied_addresses ops)).
Proof. by eapply run_destroyed_origin. Qed.

Lemma destroyed_addresses_were_owned_witness :
  5%N ≠ NULL ∧
  (held (objs (World {[ 0 := Owning 5%N ]} [])) 5%N ∨
   5%N ∈ supplied_addresses [Reset default_delete 0 6%N]).
Proof.
  destruct (destroyed_addresses_were_owned [Reset default_delete 0 6%N]
              (World {[ 0 := Owning 5%N ]} [])
              (World {[ 0 := Owning 6%N ]} [Called default_delete 5%N; Deleted 5%N]) 5%N)
    as [Hin|H].
  - vm_compute. reflexivity.
  - vm_compute. by left.
  - vm_compute in Hin. by apply elem_of_nil in Hin.
  - exact H.
Defined.

(** X3.  The deallocation primitive matches the policy: a run in which no
    operation belongs to an owning pointer with policy [default_delete]
    releases nothing with [delete], and a run in which none belongs to one
    with the array policy releases nothing with [delete []]. *)
Theorem primitive_matches_policy (ops : list op) (w w' : world)
    (Hrun : run ops w = Some (tt, w')) :
  (Forall (λ o, op_policy o ≠ Some default_delete) ops →
   scalar_deleted (trace w') = scalar_deleted (trace w)) ∧
  (Forall (λ o, op_policy o ≠ Some default_delete_array) ops →
   array_deleted (trace w') = array_deleted (trace w)).
Proof. by apply run_deleted_by. Qed.

Lemma primitive_matches_policy_witness :
  ∃ w', run [Construct 0 5%N; Reset default_delete_array 0 6%N; Destroy default_delete_array 0]
            (World ∅ []) = Some (tt, w') ∧
        scalar_deleted (trace w') = [] ∧ array_deleted (trace w') = [5%N; 6%N].
Proof.
  eexists. split; [vm_compute; reflexivity|]. split; [|reflexivity].
  eapply (primitive_matches_policy
            [Construct 0 5%N; Reset default_delete_array 0 6%N; Destroy default_delete_array 0]
            (World ∅ [])).
  - vm_compute. reflexivity.
  - apply (bool_decide_unpack _). vm_compute. exact I.
Defined.

(** X4.  Every operation invokes the destruction policy at most once, and
    the constructors, [get], the boolean test, [release] and the conversion
    to a [unique_ptr_base_ref] never do: a run invokes the policy at most
    as often as it has assignments, resets, destructions and conversions to
    an owning pointer, whose temporary is destroyed, and a run without
    them leaves the trace as it was. *)
Theorem policy_invoked_at_most_once_per_operation (ops : list op) (w w' : world)
    (Hrun : run ops w = Some (tt, w')) :
  length (policy_calls (trace w'))
  ≤ length (policy_calls (trace w)) + length (filter (λ o, is_Some (op_policy o)) ops)
  ∧ (Forall (λ o, op_policy o = None) ops → trace w' = trace w).
Proof.
  split; [by apply run_policy_calls_bound|]. intros Hall. by eapply run_no_policy_trace.
Qed.

Lemma policy_invoked_at_most_once_per_operation_witness :
  ∃ w', run [Construct 0 5%N; ConstructFrom 1 0; Release 1; Get 0; BooleanTest 1; ToRef 0]
            (World ∅ []) = Some (tt, w') ∧ trace w' = [].
Proof.
  eexists. split; [vm_compute; reflexivity|].
  eapply (policy_invoked_at_most_once_per_operation
            [Construct 0 5%N; ConstructFrom 1 0; Release 1; Get 0; BooleanTest 1; ToRef 0]
            (World ∅ [])).
  - vm_compute. reflexivity.
  - apply (bool_decide_unpack _). vm_compute. exact I.
Defined.

(** ** The operations one by one *)

(** X5.  [reset (p)] always leaves the instance holding [p], never invokes
    the policy on [p] nor destroys it, destroys the pointee held before
    exactly when that is neither null nor [p], and touches no other
    object. *)
Theorem reset_takes_new_address (D : deleter) (this : obj) (p : pointer)
    (u : unique_ptr_base) (w : world)
    (Hthis : objs w !! this = Some u) :
  ∃ w', reset D this p w = Some (tt, w') ∧
        get this w' = Some (p, w') ∧
        calls_on p (trace w') = calls_on p (trace w) ∧
        times_destroyed p (trace w') = times_destroyed p (trace w) ∧
        destroyed (trace w')
        = destroyed (trace w) ++
          (if decide (m_ptr u = p ∨ m_ptr u = NULL) then [] else [m_ptr u]) ∧
        ∀ i, i ≠ this → objs w' !! i = objs w !! i.
Proof.
  rewrite (reset_live D this p u) by done. case_decide as Hne.
  - eexists. split; [done|]. simpl. split_and!.
    + eapply (get_live _ this (Owning p)); simpl. by rewrite lookup_insert_eq.
    + apply calls_on_other. congruence.
    + apply times_destroyed_other. congruence.
    + rewrite destroyed_app, destroyed_invocation. f_equal.
      destruct (decide (m_ptr u = NULL)) as [Hn|Hn].
      * rewrite decide_True; [done | by right].
      * rewrite decide_False; [done|]. intros [?|?]; congruence.
    + intros i ?. by rewrite lookup_insert_ne.
  - eexists. split; [done|]. split_and!; [|done|done| |done].
    + apply (get_live w this u) in Hthis. by rewrite Hne.
    + rewrite decide_True; [by rewrite app_nil_r | by left].
Qed.

Lemma reset_takes_new_address_witness :
  ∃ w', reset default_delete 0 9%N (World {[ 0 := Owning 7%N ]} []) = Some (tt, w') ∧
        get 0 w' = Some (9%N, w') ∧ destroyed (trace w') = [7%N].
Proof.
  destruct (reset_takes_new_address default_delete 0 9%N (Owning 7%N)
              (World {[ 0 := Owning 7%N ]} [])) as (w' & ? & ? & _ & _ & ? & _);
    [reflexivity|].
  exists w'. by split_and!.
Defined.

(** X6.  The assignment from NULL leaves the instance null and testing
    false.  It invokes the policy, once and on the address held, exactly
    when that address is not null; on a null instance it adds no event,
    where the destructor would still call the policy. *)
Theorem assign_null_empties (D : deleter) (this : obj) (u : unique_ptr_base) (w : world)
    (Hthis : objs w !! this = Some u) :
  ∃ w', assign_null D this w = Some (tt, w') ∧
        get this w' = Some (NULL, w') ∧
        boolean_test this w' = Some (false, w') ∧
        policy_calls (trace w')
        = policy_calls (trace w) ++ (if decide (m_ptr u = NULL) then [] else [m_ptr u]) ∧
        destroyed (trace w')
        = destroyed (trace w) ++ (if decide (m_ptr u = NULL) then [] else [m_ptr u]).
Proof.
  unfold assign_null. rewrite (reset_live D this NULL u) by done. case_decide as Hne.
  - eexists. split; [done|]. simpl.
    assert (m_ptr u ≠ NULL) as Hnn by congruence.
    rewrite policy_calls_app, destroyed_app, policy_calls_invocation, destroyed_invocation.
    rewrite !decide_False by done. split_and!; [| |done..].
    + eapply (get_live _ this (Owning NULL)); simpl. by rewrite lookup_insert_eq.
    + erewrite boolean_test_live; [|simpl; by rewrite lookup_insert_eq]. done.
  - eexists. split; [done|]. rewrite !decide_True, !app_nil_r by done. split_and!; [| |done..].
    + apply (get_live w this u) in Hthis. by rewrite Hne.
    + rewrite (boolean_test_live w this u Hthis). rewrite <- Hne. done.
Qed.

Lemma assign_null_empties_witness :
  (∃ w', assign_null default_delete 0 (World {[ 0 := Owning 7%N ]} []) = Some (tt, w') ∧
         get 0 w' = Some (NULL, w') ∧ policy_calls (trace w') = [7%N]) ∧
  (∃ w', assign_null default_delete 0 (World {[ 0 := Owning NULL ]} []) = Some (tt, w') ∧
         get 0 w' = Some (NULL, w') ∧ policy_calls (trace w') = []).
Proof.
  split.
  - destruct (assign_null_empties default_delete 0 (Owning 7%N) (World {[ 0 := Owning 7%N ]} []))
      as (w' & ? & ? & _ & ? & _); [reflexivity|].
    exists w'. by split_and!.
  - destruct (assign_null_empties default_delete 0 (Owning NULL) (World {[ 0 := Owning NULL ]} []))
      as (w' & ? & ? & _ & ? & _); [reflexivity|].
    exists w'. by split_and!.
Defined.

(** X7.  The assignment from a [unique_ptr_base_ref] is [reset] on the
    address in the ref: the two member functions agree on every state. *)
Theorem assign_from_ref_is_reset (D : deleter) (this : obj) (ref : unique_ptr_base_ref)
    (w : world) :
  assign_from_ref D this ref w = reset D this (ref_m_ptr ref) w.
Proof.
  destruct (objs w !! this) as [u|] eqn:Hthis.
  - by rewrite (assign_from_ref_live D this ref u), (reset_live D this (ref_m_ptr ref) u).
  - unfold assign_from_ref, reset, get, load, mbind, M_bind. by rewrite Hthis.
Qed.

(** X8.  The conversion [operator unique_ptr_base<T1, D1>] does to the
    store what copy-constructing the result from the source does: the
    temporary it returns from is gone afterwards, and the only difference
    is one call of policy [D1] on the null address, made when the emptied
    temporary is destroyed; nothing is destroyed. *)
Theorem conversion_is_construct_from (D1 : deleter) (d tmp b : obj) (v : unique_ptr_base)
    (w : world)
    (Hd : objs w !! d = Some v)
    (Htmp : objs w !! tmp = None)
    (Hb : objs w !! b = None)
    (Hne : tmp ≠ b) :
  ∃ w1 w2, operator_convert D1 d tmp b w = Some (tt, w1) ∧
           construct_from b d w = Some (tt, w2) ∧
           objs w1 = objs w2 ∧
           trace w1 = trace w2 ++ [Called D1 NULL] ∧
           destroyed (trace w1) = destroyed (trace w2).
Proof.
  eexists _, _. split; [by apply (operator_convert_fresh D1 d tmp b v)|].
  split; [by apply (construct_from_fresh b d v)|]. simpl.
  rewrite invocation_NULL. split_and!; [done..|].
  by rewrite destroyed_app, app_nil_r.
Qed.

Lemma conversion_is_construct_from_witness :
  ∃ w1 w2, operator_convert default_delete 0 2 1 (World {[ 0 := Owning 7%N ]} [])
           = Some (tt, w1) ∧
           construct_from 1 0 (World {[ 0 := Owning 7%N ]} []) = Some (tt, w2) ∧
           objs w1 = objs w2 ∧ trace w1 = [Called default_delete NULL].
Proof.
  destruct (conversion_is_construct_from default_delete 0 2 1 (Owning 7%N)
              (World {[ 0 := Owning 7%N ]} []))
    as (w1 & w2 & H1 & H2 & ? & Htr & _); [reflexivity | reflexivity | reflexivity | lia |].
  exists w1, w2. split_and!; [done..|].
  rewrite Htr. vm_compute in H2. injection H2 as <-. reflexivity.
Defined.

(** X9.  Assigning from another instance that holds a different address
    deletes what the target owned: the policy is invoked once, on the
    target's previous address [y], the pointee at [y] is destroyed unless
    [y] is null, and the policy is not invoked on the incoming address. *)
Theorem assign_from_destroys_previous (D : deleter) (this a : obj) (x y : pointer) (w : world)
    (Hne : this ≠ a)
    (Hthis : objs w !! this = Some (Owning y))
    (Ha : objs w !! a = Some (Owning x))
    (Hxy : x ≠ y) :
  ∃ w', assign_from D this a w = Some (tt, w') ∧
        policy_calls (trace w') = policy_calls (trace w) ++ [y] ∧
        destroyed (trace w') = destroyed (trace w) ++ (if decide (y = NULL) then [] else [y]) ∧
        calls_on x (trace w') = calls_on x (trace w).
Proof.
  rewrite (assign_from_other D this a (Owning y) (Owning x)) by done. simpl.
  rewrite decide_True by done. eexists. split; [done|]. simpl.
  rewrite policy_calls_app, destroyed_app, policy_calls_invocation, destroyed_invocation.
  split_and!; [done..|]. apply calls_on_other. congruence.
Qed.

Lemma assign_from_destroys_previous_witness :
  ∃ w', assign_from default_delete 1 0 (World {[ 0 := Owning 7%N; 1 := Owning 9%N ]} [])
        = Some (tt, w') ∧
        policy_calls (trace w') = [9%N] ∧ destroyed (trace w') = [9%N].
Proof.
  destruct (assign_from_destroys_previous default_delete 1 0 7%N 9%N
              (World {[ 0 := Owning 7%N; 1 := Owning 9%N ]} []))
    as (w' & ? & ? & ? & _); [lia | reflexivity | reflexivity | done |].
  exists w'. by split_and!.
Defined.

(** ** Compositions *)

(** X10.  The generic swap by copy and assignment exchanges the addresses
    of two distinct owning pointers and leaves every other object as it
    was; nothing is destroyed, and the policy is invoked on the null address
    only. *)
Theorem swap_by_copy_exchanges (D : deleter) (tmp a b : obj) (x y : pointer) (w : world)
    (Hab : a ≠ b)
    (Ha : objs w !! a = Some (Owning x))
    (Hb : objs w !! b = Some (Owning y))
    (Htmp : objs w !! tmp = None) :
  ∃ w', swap_by_copy D tmp a b w = Some (tt, w') ∧
        objs w' = <[a := Owning y]> (<[b := Owning x]> (objs w)) ∧
        destroyed (trace w') = destroyed (trace w) ∧
        ∀ q, q ∈ policy_calls (trace w') → q ∈ policy_calls (trace w) ∨ q = NULL.
Proof.
  assert (tmp ≠ a) as Hta by congruence. assert (tmp ≠ b) as Htb by congruence.
  unfold swap_by_copy.
  rewrite (bind_Some _ _ _ _ _ (construct_from_fresh tmp a (Owning x) w Ha Htmp)).
  erewrite bind_Some; last first.
  { apply (assign_from_other D a b (Owning NULL) (Owning y)); [done|..]; simpl.
    - by rewrite lookup_insert_ne, lookup_insert_eq.
    - by rewrite !lookup_insert_ne. }
  simpl.
  set (w2 := if decide (y ≠ NULL) then _ else _).
  assert (objs w2 = <[a := Owning y]> (<[b := Owning NULL]>
                      (<[tmp := Owning x]> (<[a := Owning NULL]> (objs w)))) ∧
          ∃ evs, trace w2 = trace w ++ evs ∧ destroyed evs = [] ∧
                 ∀ q, q ∈ policy_calls evs → q = NULL) as (Hobjs2 & evs2 & Htr2 & Hd2 & Hc2).
  { subst w2. case_decide as Hy; simpl.
    - split; [done|]. exists (invocation D NULL). rewrite invocation_NULL. split_and!; [done..|].
      simpl. by intros q ->%list_elem_of_singleton.
    - split.
      + apply map_eq. intros i. rewrite Hy.
        destruct (decide (i = a)) as [->|?];
          [by simplify_map_eq | by rewrite (lookup_insert_ne _ a i)].
      + exists []. rewrite app_nil_r. split_and!; [done..|]. by intros q ?%elem_of_nil. }
  erewrite bind_Some; last first.
  { apply (assign_from_other D b tmp (Owning NULL) (Owning x)); [done|..]; rewrite Hobjs2.
    - by simplify_map_eq.
    - by simplify_map_eq. }
  simpl.
  set (w3 := if decide (x ≠ NULL) then _ else _).
  assert (objs w3 = <[b := Owning x]> (<[tmp := Owning NULL]> (objs w2)) ∧
          ∃ evs, trace w3 = trace w2 ++ evs ∧ destroyed evs = [] ∧
                 ∀ q, q ∈ policy_calls evs → q = NULL) as (Hobjs3 & evs3 & Htr3 & Hd3 & Hc3).
  { subst w3. case_decide as Hx; simpl.
    - split; [done|]. exists (invocation D NULL). rewrite invocation_NULL. split_and!; [done..|].
      simpl. by intros q ->%list_elem_of_singleton.
    - split.
      + apply map_eq. intros i. rewrite Hx, Hobjs2.
        destruct (decide (i = b)) as [->|?];
          [by simplify_map_eq | by rewrite (lookup_insert_ne _ b i)].
      + exists []. rewrite app_nil_r. split_and!; [done..|]. by intros q ?%elem_of_nil. }
  erewrite (destructor_live D tmp (Owning NULL)); last first.
  { rewrite Hobjs3. by simplify_map_eq. }
  eexists. split; [done|]. simpl. rewrite Hobjs3, Hobjs2, Htr3, Htr2. split_and!.
  - apply map_eq. intros i.
    destruct (decide (i = a)) as [->|?]; [by simplify_map_eq|].
    destruct (decide (i = b)) as [->|?]; [by simplify_map_eq|].
    destruct (decide (i = tmp)) as [->|?]; by simplify_map_eq.
  - rewrite !destroyed_app, Hd2, Hd3, invocation_NULL. simpl. by rewrite !app_nil_r.
  - intros q. rewrite !policy_calls_app, !elem_of_app, invocation_NULL. simpl.
    rewrite list_elem_of_singleton. intros [[[?|?]|?]|?]; eauto.
Qed.

Lemma swap_by_copy_exchanges_witness :
  ∃ w', swap_by_copy default_delete 2 0 1 (World {[ 0 := Owning 7%N; 1 := Owning 9%N ]} [])
        = Some (tt, w') ∧
        objs w' = {[ 0 := Owning 9%N; 1 := Owning 7%N ]} ∧ destroyed (trace w') = [].
Proof.
  destruct (swap_by_copy_exchanges default_delete 2 0 1 7%N 9%N
              (World {[ 0 := Owning 7%N; 1 := Owning 9%N ]} []))
    as (w' & ? & Hobjs & ? & _); [lia | reflexivity | reflexivity | reflexivity |].
  exists w'. split_and!; [done| |done]. rewrite Hobjs. vm_compute. reflexivity.
Defined.

(** X11.  [gdb::move (p)] does to the store what copy-constructing the
    result from [p] does: the by-value parameter leaves no trace in the
    store, and the only difference is one policy call on the null address,
    made when the emptied parameter is destroyed. *)
Theorem move_is_construct_from (D : deleter) (p v u : obj) (x : pointer) (w : world)
    (Hp : objs w !! p = Some (Owning x))
    (Hv : objs w !! v = None)
    (Hu : objs w !! u = None)
    (Hvu : v ≠ u) :
  ∃ w1 w2, move D v u p w = Some (tt, w1) ∧
           construct_from u p w = Some (tt, w2) ∧
           objs w1 = objs w2 ∧
           trace w1 = trace w2 ++ [Called D NULL].
Proof.
  assert (v ≠ p) by congruence. assert (u ≠ p) by congruence.
  eexists _, _. split; [by apply move_live|].
  split; [by apply (construct_from_fresh u p (Owning x))|]. simpl. split; [|done].
  apply map_eq. intros i.
  destruct (decide (i = v)) as [->|?]; [by simplify_map_eq|].
  destruct (decide (i = u)) as [->|?]; [by simplify_map_eq|].
  destruct (decide (i = p)) as [->|?]; by simplify_map_eq.
Qed.

Lemma move_is_construct_from_witness :
  ∃ w1 w2, move default_delete 1 2 0 (World {[ 0 := Owning 7%N ]} []) = Some (tt, w1) ∧
           construct_from 2 0 (World {[ 0 := Owning 7%N ]} []) = Some (tt, w2) ∧
           objs w1 = objs w2.
Proof.
  destruct (move_is_construct_from default_delete 0 1 2 7%N (World {[ 0 := Owning 7%N ]} []))
    as (w1 & w2 & ? & ? & ? & _); [reflexivity | reflexivity | reflexivity | lia |].
  exists w1, w2. by split_and!.
Defined.

(** ** No pointee is lost *)

Lemma effect_destroyed_mono w o w' q :
  effect w o w' → q ∈ destroyed (trace w) → q ∈ destroyed (trace w').
Proof.
  intros Heff Hq. destruct (effect_events w o w' Heff) as [->|(D & q' & -> & _)]; [done|].
  rewrite destroyed_app, elem_of_app. by left.
Qed.

Lemma destroyed_invocation_elem D q tr :
  q ≠ NULL → q ∈ destroyed (tr ++ invocation D q).
Proof.
  intros Hq. rewrite destroyed_app, destroyed_invocation, decide_False by done.
  rewrite elem_of_app, list_elem_of_singleton. by right.
Qed.

Lemma effect_accounts w o w' q :
  effect w o w' → hands_out o = false → q ≠ NULL →
  held (objs w) q ∨ (∃ t, supplied o = Some (t, q)) →
  held (objs w') q ∨ q ∈ destroyed (trace w').
Proof.
  assert (∀ (m : gmap obj unique_ptr_base) i p, m !! i = Some (Owning p) → held m p) as Hheld.
  { intros m i p Hi. apply held_spec. by eauto. }
  intros Heff Hout Hq [(i & [px] & Hi & <-)%held_spec|[t Ht]];
    destruct Heff as [this p|this a v|this ref|D this u|D this a u v|D this a u v|D this u
                      |D this u|D this ref u|D this ref u|this u|this u|this u|D this p u
                      |D this p u|D this u|this u|D1 this tmp result v];
    repeat match goal with x : unique_ptr_base |- _ => destruct x end;
    simplify_eq/=; try (left; by eauto).
  - (* Construct *) left. apply (Hheld _ i). by simplify_map_eq.
  - (* ConstructFrom *)
    left. destruct (decide (i = a)) as [->|?].
    + simplify_eq. apply (Hheld _ this). by simplify_map_eq.
    + apply (Hheld _ i). by simplify_map_eq.
  - (* ConstructFromRef *) left. apply (Hheld _ i). by simplify_map_eq.
  - (* AssignFrom, same address *)
    left. destruct (decide (i = a)) as [->|?].
    + simplify_eq. apply (Hheld _ this). by simplify_map_eq.
    + apply (Hheld _ i). by simplify_map_eq.
  - (* AssignFrom, other address *)
    destruct (decide (i = this)) as [->|?].
    + simplify_eq. right. by apply destroyed_invocation_elem.
    + left. destruct (decide (i = a)) as [->|?].
      * simplify_eq. apply (Hheld _ this). by simplify_map_eq.
      * apply (Hheld _ i). by simplify_map_eq.
  - (* AssignNull *)
    destruct (decide (i = this)) as [->|?].
    + simplify_eq. right. by apply destroyed_invocation_elem.
    + left. apply (Hheld _ i). by simplify_map_eq.
  - (* AssignFromRef *)
    destruct (decide (i = this)) as [->|?].
    + simplify_eq. right. by apply destroyed_invocation_elem.
    + left. apply (Hheld _ i). by simplify_map_eq.
  - (* Reset *)
    destruct (decide (i = this)) as [->|?].
    + simplify_eq. right. by apply destroyed_invocation_elem.
    + left. apply (Hheld _ i). by simplify_map_eq.
  - (* Destroy *)
    destruct (decide (i = this)) as [->|?].
    + simplify_eq. right. by apply destroyed_invocation_elem.
    + left. apply (Hheld _ i). by simplify_map_eq.
  - (* Convert *)
    left. destruct (decide (i = this)) as [->|?].
    + simplify_eq. apply (Hheld _ result). by simplify_map_eq.
    + apply (Hheld _ i). by simplify_map_eq.
  - (* Construct, supplied *) left. apply (Hheld _ t). by simplify_map_eq.
  - (* ConstructFromRef, supplied *) left. apply (Hheld _ t). by simplify_map_eq.
  - (* AssignFromRef, supplied *) left. apply (Hheld _ t). by simplify_map_eq.
  - (* Reset, supplied *) left. apply (Hheld _ t). by simplify_map_eq.
Qed.

Lemma run_accounts ops w w' q :
  Forall (λ o, hands_out o = false) ops → q ≠ NULL →
  run ops w = Some (tt, w') →
  held (objs w) q ∨ q ∈ destroyed (trace w) ∨ q ∈ supplied_addresses ops →
  held (objs w') q ∨ q ∈ destroyed (trace w').
Proof.
  intros Hall Hq. revert w. induction Hall as [|o ops Ho Hall IH]; intros w; simpl.
  - intros [= <-] [?|[?|Hin]]; [by left | by right |]. by apply elem_of_nil in Hin.
  - unfold mbind, M_bind.
    destruct (step o w) as [[[] w1]|] eqn:Hstep; [|done].
    apply step_effect in Hstep. intros Hrun Hsrc. apply (IH w1 Hrun).
    assert (held (objs w) q ∨ (∃ t, supplied o = Some (t, q)) →
            held (objs w1) q ∨ q ∈ destroyed (trace w1) ∨ q ∈ supplied_addresses ops) as Hone.
    { intros Hs. destruct (effect_accounts w o w1 q Hstep Ho Hq Hs); by eauto. }
    destruct Hsrc as [?|[?|Hin]].
    + apply Hone. by left.
    + right. left. by eapply effect_destroyed_mono.
    + unfold supplied_addresses in Hin. simpl in Hin.
      destruct (supplied o) as [[t p]|] eqn:Hsup; simpl in Hin.
      * apply elem_of_cons in Hin as [->|Hin]; [apply Hone; right; by eauto|].
        right. by right.
      * right. by right.
Qed.

(** X15.  No leak.  In a run without [release] and without a conversion to
    a bare [unique_ptr_base_ref], a non-null address that an owning pointer
    held at the start, or was handed during the run, is at the end still
    held by a live owning pointer or has been destroyed; so once every
    owning pointer has gone out of scope it has been destroyed. *)
Theorem no_pointee_lost (ops : list op) (w w' : world) (q : pointer)
    (Hkeep : Forall (λ o, hands_out o = false) ops)
    (Hq : q ≠ NULL)
    (Hrun : run ops w = Some (tt, w'))
    (Hsrc : held (objs w) q ∨ q ∈ supplied_addresses ops) :
  (held (objs w') q ∨ q ∈ destroyed (trace w')) ∧
  (objs w' = ∅ → q ∈ destroyed (trace w')).
Proof.
  assert (held (objs w') q ∨ q ∈ destroyed (trace w')) as Hend.
  { eapply run_accounts; [done..|]. destruct Hsrc; by eauto. }
  split; [done|]. intros Hempty. destruct Hend as [(i & u & Hi & _)%held_spec|?]; [|done].
  rewrite Hempty in Hi. by rewrite lookup_empty in Hi.
Qed.

Lemma no_pointee_lost_witness :
  ∃ w', run [Construct 0 5%N; ConstructFrom 1 0; Convert default_delete 1 3 2;
             Destroy default_delete 0;
             Destroy default_delete 1; Destroy default_delete 2] (World ∅ [])
        = Some (tt, w') ∧ 5%N ∈ destroyed (trace w').
Proof.
  eexists. split; [vm_compute; reflexivity|].
  eapply (no_pointee_lost
            [Construct 0 5%N; ConstructFrom 1 0; Convert default_delete 1 3 2;
             Destroy default_delete 0;
             Destroy default_delete 1; Destroy default_delete 2] (World ∅ [])).
  - apply (bool_decide_unpack _). vm_compute. exact I.
  - done.
  - vm_compute. reflexivity.
  - right. vm_compute. by left.
  - vm_compute. reflexivity.
Defined.

(** X16.  After [release ()] the instance owns nothing: a second [release]
    returns null and changes nothing more, and when the instance goes out
    of scope no pointee is destroyed, the policy being invoked on the null
    address only. *)
Theorem released_instance_owns_nothing (D : deleter) (this : obj) (p : pointer) (w : world)
    (Hthis : objs w !! this = Some (Owning p)) :
  (∃ w', (release this;; release this) w = Some (NULL, w') ∧
         get this w' = Some (NULL, w') ∧ trace w' = trace w) ∧
  (∃ w', (release this;; destructor D this) w = Some (tt, w') ∧
         objs w' !! this = None ∧
         destroyed (trace w') = destroyed (trace w) ∧
         policy_calls (trace w') = policy_calls (trace w) ++ [NULL]).
Proof.
  split.
  - rewrite (bind_Some _ _ _ _ _ (release_live w this (Owning p) Hthis)).
    erewrite (release_live _ this (Owning NULL)); [|simpl; by rewrite lookup_insert_eq].
    eexists. split; [done|]. simpl. split; [|done].
    eapply (get_live _ this (Owning NULL)); simpl. by rewrite lookup_insert_eq.
  - rewrite (bind_Some _ _ _ _ _ (release_live w this (Owning p) Hthis)).
    erewrite (destructor_live D this (Owning NULL)); [|simpl; by rewrite lookup_insert_eq].
    eexists. split; [done|]. simpl. split_and!.
    + by rewrite lookup_delete_eq.
    + by rewrite invocation_NULL, destroyed_app, app_nil_r.
    + by rewrite invocation_NULL, policy_calls_app.
Qed.

Lemma released_instance_owns_nothing_witness :
  ∃ w', (release 0;; destructor default_delete 0) (World {[ 0 := Owning 7%N ]} [])
        = Some (tt, w') ∧ destroyed (trace w') = [].
Proof.
  destruct (released_instance_owns_nothing default_delete 0 7%N (World {[ 0 := Owning 7%N ]} []))
    as [_ (w' & ? & _ & ? & _)]; [reflexivity|].
  exists w'. by split.
Defined.
